(** * Bulk push rule evaluation: the per-room rule cache and the per-event pass

    A shallow embedding of [synapse/push/bulk_push_rule_evaluator.py].

    Python dictionaries are finite maps ([gmap]); the one dictionary whose
    reference escapes the object that owns it ([RulesForRoom.rules_by_user],
    handed out by the fast path of [get_rules]) lives in an explicit heap of
    dictionaries, so that aliasing and in-place [update] are visible.
    Dictionary iteration ([iteritems]) runs over the list of items in
    iteration order.  Twisted's [yield]s are the suspension points: the
    refresh of a cache entry is split into the part before the first store
    call and the part after the last one; the store calls of one refresh
    touch no field of the entry, so whatever runs between them is covered
    by what runs before the resumption.

    A rule is a record with its ['conditions'] and ['actions'] present;
    ['enabled'] and a condition's ["_id"] are optional, as the code tests
    for them.  The [logger] calls have no effect on the result and are left
    out.  A [KeyError] is the result [None]. *)

From stdpp Require Import gmap strings list fin_maps.

Open Scope string_scope.
Open Scope list_scope.

(** ** Data model *)

(** An action of a rule is either a plain string (["notify"],
    ["dont_notify"], ...) or a JSON object such as
    [{"set_tweak": "sound", "value": "default"}]. *)
Inductive Action :=
  | ActStr (s : string)
  | ActDict (fields : list (string * string)).

Global Instance Action_eq_dec : EqDecision Action.
Proof. solve_decision. Defined.

(** A condition is a JSON object; [cond_id] is its optional ["_id"] entry. *)
Record Condition := {
  cond_id : option string;
  cond_fields : list (string * string);
}.

(** A push rule: ['enabled'] may be missing from the dictionary. *)
Record Rule := {
  enabled : option bool;
  conditions : list Condition;
  actions : list Action;
}.

Record Event := {
  ev_event_id : string;
  ev_room_id : string;
  ev_type : string;
  ev_sender : string;
  ev_state_key : option string;
  ev_content : gmap string string;
}.

(** [context.state_group] is [None] or an integer; [current_state_ids] is
    listed in the order [iteritems] yields it. *)
Record Context := {
  ctx_state_group : option Z;
  ctx_current_state_ids : list ((string * string) * string);
}.

(** A row of [room_memberships] as selected by
    [_get_rules_for_member_event_ids]. *)
Record Row := {
  row_user_id : string;
  row_membership : string;
  row_event_id : string;
}.

Record ProfileInfo := {
  display_name : option string;
}.

(** The constants of [synapse.api.constants] the module reads. *)
Definition EventTypes_Member : string := "m.room.member".
Definition Membership_JOIN : string := "join".

(** Python truthiness of the values the module tests. *)
Definition truthy_str (s : option string) : bool :=
  match s with
  | Some s => negb (String.eqb s "")
  | None => false
  end.

Definition truthy_int (z : option Z) : bool :=
  match z with
  | Some z => negb (z =? 0)%Z
  | None => false
  end.

(** ** The collaborators

    Everything the module calls but does not define: the home server, the
    data store, the visibility filter and the condition evaluator. *)
Record HomeServer := {
  is_mine_id : string → bool;
  get_if_app_services_interested_in_user : string → bool;
  _simple_select_many_batch : list string → list Row;
  get_if_users_have_pushers : gset string → gmap string bool;
  get_users_with_read_receipts_in_room : string → list string;
  bulk_get_push_rules : gset string → gmap string (option (list Rule));
  user_has_pusher : string → bool;
  get_push_rules_for_user : string → list Rule;
  filter_events_for_clients_context :
    list (string * bool) → list Event → Context → gmap string (list Event);
  get_joined_users_from_context : Event → Context → gmap string ProfileInfo;
  (** [PushRuleEvaluatorForEvent(event, room_member_count).matches] *)
  evaluator_matches :
    Event → nat → Condition → string → option string → bool;
}.

(** ** The heap of dictionaries

    [next_obj] is the identity of the next allocated object; both
    dictionaries and [object()] sentinels draw from it. *)
Record Heap := {
  next_obj : nat;
  dicts : gmap nat (gmap string (list Rule));
}.

Definition deref (h : Heap) (l : nat) : gmap string (list Rule) :=
  default ∅ (dicts h !! l).

Definition alloc_dict (d : gmap string (list Rule)) (h : Heap) : nat * Heap :=
  (next_obj h, {| next_obj := S (next_obj h); dicts := <[next_obj h := d]> (dicts h) |}).

Definition alloc_object (h : Heap) : nat * Heap :=
  (next_obj h, {| next_obj := S (next_obj h); dicts := dicts h |}).

Definition store_dict (l : nat) (d : gmap string (list Rule)) (h : Heap) : Heap :=
  {| next_obj := next_obj h; dicts := <[l := d]> (dicts h) |}.

(** ** RulesForRoom *)

(** The value of [self.state_group]: an [object()] sentinel, or whatever
    [context.state_group] was at the last commit. *)
Inductive StateGroupRef :=
  | Sentinel (o : nat)
  | Group (g : option Z).

(** [member_map] is held by value: no reference to it leaves the object.
    [rules_by_user] is a reference into the heap. *)
Record RulesForRoom := {
  room_id : string;
  member_map : gmap string (string * string);
  rules_by_user : nat;
  state_group : StateGroupRef;
  sequence : Z;
}.

(** [self.state_group == state_group]: a sentinel equals nothing else. *)
Definition state_group_eq (s : StateGroupRef) (g : option Z) : bool :=
  match s with
  | Sentinel _ => false
  | Group g' => bool_decide (g' = g)
  end.

(** [RulesForRoom.__init__] *)
Definition RulesForRoom_init (rid : string) (h : Heap) : RulesForRoom * Heap :=
  let '(l, h1) := alloc_dict ∅ h in
  let '(o, h2) := alloc_object h1 in
  ({| room_id := rid; member_map := ∅; rules_by_user := l;
      state_group := Sentinel o; sequence := 0 |}, h2).

(** [RulesForRoom.invalidate_all] *)
Definition invalidate_all (self : RulesForRoom) (h : Heap) : RulesForRoom * Heap :=
  let '(o, h1) := alloc_object h in
  let '(l, h2) := alloc_dict ∅ h1 in
  ({| room_id := room_id self; member_map := ∅; rules_by_user := l;
      state_group := Sentinel o; sequence := (sequence self + 1)%Z |}, h2).

(** [RulesForRoom.update_cache]: [dict.update] lets the new entries win. *)
Definition update_cache (self : RulesForRoom) (h : Heap) (sequence0 : Z)
    (members : gmap string (string * string))
    (new_rules : gmap string (list Rule)) (sg : option Z)
    : RulesForRoom * Heap :=
  if bool_decide (sequence0 = sequence self) then
    ({| room_id := room_id self;
        member_map := members ∪ member_map self;
        rules_by_user := rules_by_user self;
        state_group := Group sg;
        sequence := sequence self |},
     store_dict (rules_by_user self)
       (new_rules ∪ deref h (rules_by_user self)) h)
  else (self, h).

(** *** get_rules

    The body of the loop over [current_state_ids.iteritems()].  [cached] is
    the dictionary [self.rules_by_user] refers to; the accumulator is
    [(ret_rules_by_user, missing_member_event_ids)]. *)
Definition classify (hs : HomeServer) (self : RulesForRoom)
    (cached : gmap string (list Rule))
    (acc : gmap string (list Rule) * gmap string string)
    (item : (string * string) * string)
    : gmap string (list Rule) * gmap string string :=
  let '(key, event_id) := item in
  match member_map self !! event_id with
  | Some (user_id, state) =>
      if String.eqb state Membership_JOIN then
        match cached !! user_id with
        | Some (r :: rs) => (<[user_id := r :: rs]> acc.1, acc.2)
        | _ => acc
        end
      else acc
  | None =>
      if negb (String.eqb key.1 EventTypes_Member) then acc
      else if negb (is_mine_id hs key.2) then acc
      else if get_if_app_services_interested_in_user hs key.2 then acc
      else (acc.1, <[key.2 := event_id]> acc.2)
  end.

Definition partition_state (hs : HomeServer) (self : RulesForRoom)
    (cached : gmap string (list Rule)) (ctx : Context)
    : gmap string (list Rule) * gmap string string :=
  fold_left (classify hs self cached) (ctx_current_state_ids ctx) (∅, ∅).

(** A refresh suspended in [_get_rules_for_member_event_ids] at its first
    store call: the captured [sequence], the reference to
    [ret_rules_by_user], [missing_member_event_ids] and [state_group]. *)
Record Pending := {
  p_sequence : Z;
  p_ret : nat;
  p_missing : gmap string string;
  p_state_group : option Z;
}.

Inductive Progress :=
  | Returned (l : nat)
  | Suspended (p : Pending).

(** [get_rules] up to its first suspension point.  The fast path returns
    the reference [self.rules_by_user] itself. *)
Definition get_rules_begin (hs : HomeServer) (self : RulesForRoom)
    (ctx : Context) (h : Heap) : Progress * Heap :=
  if truthy_int (ctx_state_group ctx)
     && state_group_eq (state_group self) (ctx_state_group ctx)
  then (Returned (rules_by_user self), h)
  else
    let parts := partition_state hs self (deref h (rules_by_user self)) ctx in
    let '(l, h1) := alloc_dict parts.1 h in
    if bool_decide (parts.2 = ∅) then (Returned l, h1)
    else (Suspended {| p_sequence := sequence self; p_ret := l;
                       p_missing := parts.2;
                       p_state_group := ctx_state_group ctx |}, h1).

(** *** _get_rules_for_member_event_ids *)

(** [members]: a dictionary comprehension, later rows win. *)
Definition members_of_rows (rows : list Row) : gmap string (string * string) :=
  fold_left
    (λ m row, <[row_event_id row := (row_user_id row, row_membership row)]> m)
    rows ∅.

Definition resolved_members (hs : HomeServer) (member_event_ids : gmap string string)
    : gmap string (string * string) :=
  members_of_rows (_simple_select_many_batch hs (map_to_list member_event_ids).*2).

Definition interested_in_user_ids (members : gmap string (string * string))
    : gset string :=
  list_to_set (map_to_list members).*2.*1.

(** [user_ids]: the users reported with a pusher, then every user with a
    read receipt that is in [interested_in_user_ids]. *)
Definition pusher_user_ids (if_users_with_pushers : gmap string bool) : gset string :=
  dom (filter (λ kv, kv.2 = true) if_users_with_pushers).

Definition add_receipt_users (interested : gset string)
    (users_with_receipts : list string) (user_ids : gset string) : gset string :=
  fold_left
    (λ acc uid, if bool_decide (uid ∈ interested) then {[uid]} ∪ acc else acc)
    users_with_receipts user_ids.

Definition fetched_user_ids (hs : HomeServer) (self : RulesForRoom)
    (members : gmap string (string * string)) : gset string :=
  let interested := interested_in_user_ids members in
  add_receipt_users interested
    (get_users_with_read_receipts_in_room hs (room_id self))
    (pusher_user_ids (get_if_users_have_pushers hs interested)).

(** [{k: v for k, v in rules_by_user.iteritems() if v is not None}] *)
Definition fetched_rules (hs : HomeServer) (self : RulesForRoom)
    (members : gmap string (string * string)) : gmap string (list Rule) :=
  omap id (bulk_get_push_rules hs (fetched_user_ids hs self members)).

(** The function from its first store call on; [sequence0] is the value of
    [self.sequence] read before it. *)
Definition _get_rules_for_member_event_ids (hs : HomeServer) (sequence0 : Z)
    (member_event_ids : gmap string string) (sg : option Z)
    (self : RulesForRoom) (h : Heap)
    : gmap string (list Rule) * RulesForRoom * Heap :=
  let members := resolved_members hs member_event_ids in
  let new_rules := fetched_rules hs self members in
  let '(self1, h1) := update_cache self h sequence0 members new_rules sg in
  (new_rules, self1, h1).

(** [get_rules] from the suspension on:
    [ret_rules_by_user.update(missing_rules)] and the return. *)
Definition get_rules_resume (hs : HomeServer) (p : Pending)
    (self : RulesForRoom) (h : Heap) : nat * RulesForRoom * Heap :=
  let '(missing_rules, self1, h1) :=
    _get_rules_for_member_event_ids hs (p_sequence p) (p_missing p)
      (p_state_group p) self h in
  (p_ret p, self1, store_dict (p_ret p) (missing_rules ∪ deref h1 (p_ret p)) h1).

(** [get_rules] when nothing else runs at its suspension points. *)
Definition get_rules (hs : HomeServer) (self : RulesForRoom)
    (ctx : Context) (h : Heap) : nat * RulesForRoom * Heap :=
  match get_rules_begin hs self ctx h with
  | (Returned l, h1) => (l, self, h1)
  | (Suspended p, h1) => get_rules_resume hs p self h1
  end.

(** *** One cache entry under interleaving

    Between the suspension of a refresh and its resumption, invalidations
    and other refreshes of the same entry may run.  [sys_pending] holds the
    suspended refreshes. *)
Record System := {
  sys_self : RulesForRoom;
  sys_heap : Heap;
  sys_pending : list Pending;
}.

Inductive SysOp :=
  | DoInvalidateAll
  | DoBegin (hs : HomeServer) (ctx : Context)
  | DoResume (hs : HomeServer) (l : nat).

(** [DoResume hs l] resumes the suspended refresh whose
    [ret_rules_by_user] is the dictionary [l]; [hs] is the store as it
    answers the lookups of that refresh. *)
Definition sys_step (s : System) (op : SysOp) : System :=
  match op with
  | DoInvalidateAll =>
      let '(self1, h1) := invalidate_all (sys_self s) (sys_heap s) in
      {| sys_self := self1; sys_heap := h1; sys_pending := sys_pending s |}
  | DoBegin hs ctx =>
      match get_rules_begin hs (sys_self s) ctx (sys_heap s) with
      | (Returned _, h1) =>
          {| sys_self := sys_self s; sys_heap := h1; sys_pending := sys_pending s |}
      | (Suspended p, h1) =>
          {| sys_self := sys_self s; sys_heap := h1;
             sys_pending := sys_pending s ++ [p] |}
      end
  | DoResume hs l =>
      match list_find (λ p, p_ret p = l) (sys_pending s) with
      | Some (_, p) =>
          let '(_, self1, h1) := get_rules_resume hs p (sys_self s) (sys_heap s) in
          {| sys_self := self1; sys_heap := h1;
             sys_pending := filter (λ q, p_ret q ≠ l) (sys_pending s) |}
      | None => s
      end
  end.

Definition sys_run (s : System) (ops : list SysOp) : System :=
  fold_left sys_step ops s.

Definition sys_init (rid : string) (h : Heap) : System :=
  let '(self, h1) := RulesForRoom_init rid h in
  {| sys_self := self; sys_heap := h1; sys_pending := [] |}.

Definition reachable (s : System) : Prop :=
  ∃ rid h ops, s = sys_run (sys_init rid h) ops.

(** ** BulkPushRuleEvaluator *)

(** [_condition_checker]: only a condition with a truthy ["_id"] reads or
    writes the cache. *)
Definition memo_key (cond : Condition) : option string :=
  if truthy_str (cond_id cond) then cond_id cond else None.

Fixpoint _condition_checker (matches : Condition → string → option string → bool)
    (conds : list Condition) (uid : string) (dn : option string)
    (cache : gmap string bool) : bool * gmap string bool :=
  match conds with
  | [] => (true, cache)
  | cond :: rest =>
      match memo_key cond ≫= (cache !!.) with
      | Some false => (false, cache)
      | Some true => _condition_checker matches rest uid dn cache
      | None =>
          let res := matches cond uid dn in
          let cache1 :=
            match memo_key cond with
            | Some k => <[k := res]> cache
            | None => cache
            end in
          if res then _condition_checker matches rest uid dn cache1
          else (false, cache1)
      end
  end.

(** ['enabled' in rule and not rule['enabled']] *)
Definition is_disabled (rule : Rule) : bool :=
  match enabled rule with
  | Some b => negb b
  | None => false
  end.

Definition is_action (name : string) (a : Action) : bool :=
  match a with
  | ActStr s => String.eqb s name
  | ActDict _ => false
  end.

(** [[x for x in rule['actions'] if x != 'dont_notify']] *)
Definition strip_dont_notify (acts : list Action) : list Action :=
  List.filter (λ a, negb (is_action "dont_notify" a)) acts.

(** [actions and 'notify' in actions] *)
Definition notifies (acts : list Action) : bool :=
  match acts with
  | [] => false
  | _ => existsb (is_action "notify") acts
  end.

(** The loop [for rule in rules]: the entry to record for the user, if any,
    and the condition cache afterwards. *)
Fixpoint run_rules (matches : Condition → string → option string → bool)
    (rules : list Rule) (uid : string) (dn : option string)
    (cache : gmap string bool) : option (list Action) * gmap string bool :=
  match rules with
  | [] => (None, cache)
  | rule :: rest =>
      if is_disabled rule then run_rules matches rest uid dn cache
      else
        let '(m, cache1) :=
          _condition_checker matches (conditions rule) uid dn cache in
        if m then
          let acts := strip_dont_notify (actions rule) in
          (if notifies acts then Some acts else None, cache1)
        else run_rules matches rest uid dn cache1
  end.

Definition display_name_for (event : Event)
    (room_members : gmap string ProfileInfo) (uid : string) : option string :=
  let dn :=
    match room_members !! uid with
    | Some profile_info => display_name profile_info
    | None => None
    end in
  if truthy_str dn then dn
  else if String.eqb (ev_type event) EventTypes_Member
          && bool_decide (ev_state_key event = Some uid)
       then ev_content event !! "displayname"
       else dn.

(** One turn of the loop [for uid, rules in rules_by_user.iteritems()] on
    [(actions_by_user, condition_cache)]; [None] is the [KeyError] of
    [filtered_by_user[uid]]. *)
Definition user_step (event : Event)
    (matches : Condition → string → option string → bool)
    (filtered_by_user : gmap string (list Event))
    (room_members : gmap string ProfileInfo)
    (st : gmap string (list Action) * gmap string bool)
    (item : string * list Rule)
    : option (gmap string (list Action) * gmap string bool) :=
  let dn := display_name_for event room_members item.1 in
  match filtered_by_user !! item.1 with
  | None => None
  | Some [] => Some st
  | Some (first :: _) =>
      if String.eqb (ev_sender first) item.1 then Some st
      else
        let '(res, cache1) := run_rules matches item.2 item.1 dn st.2 in
        Some (match res with
              | Some acts => <[item.1 := acts]> st.1
              | None => st.1
              end, cache1)
  end.

Fixpoint user_loop (event : Event)
    (matches : Condition → string → option string → bool)
    (filtered_by_user : gmap string (list Event))
    (room_members : gmap string ProfileInfo)
    (items : list (string * list Rule))
    (st : gmap string (list Action) * gmap string bool)
    : option (gmap string (list Action) * gmap string bool) :=
  match items with
  | [] => Some st
  | item :: rest =>
      match user_step event matches filtered_by_user room_members st item with
      | Some st1 =>
          user_loop event matches filtered_by_user room_members rest st1
      | None => None
      end
  end.

(** The registry behind [_get_rules_for_room] and the heap.  The registry
    is keyed by room id. *)
Record World := {
  w_heap : Heap;
  w_rooms : gmap string RulesForRoom;
}.

(** The argument of [@cached(max_entries=10000)]. *)
Definition max_entries : Z := 10000.

(** Modelled from the spec: the cache descriptor behind [@cached] is not in
    the source.  This is [getOrCreate]: the existing entry of the room, or
    a new one that is inserted.  It describes a registry below its capacity
    of [max_entries] entries; the eviction a full registry performs on
    insertion is left out, and a statement that needs the other rooms to
    stay registered carries the capacity as a hypothesis. *)
Definition _get_rules_for_room (rid : string) (w : World) : RulesForRoom * World :=
  match w_rooms w !! rid with
  | Some r => (r, w)
  | None =>
      let '(r, h1) := RulesForRoom_init rid (w_heap w) in
      (r, {| w_heap := h1; w_rooms := <[rid := r]> (w_rooms w) |})
  end.

(** The refresh of the room's entry, as far as [_get_rules_for_event] runs
    it: the reference it returns and the world afterwards. *)
Definition refresh_room (hs : HomeServer) (event : Event) (ctx : Context)
    (w : World) : nat * World :=
  let '(rules_for_room, w1) := _get_rules_for_room (ev_room_id event) w in
  let '(l, self1, h1) := get_rules hs rules_for_room ctx (w_heap w1) in
  (l, {| w_heap := h1; w_rooms := <[ev_room_id event := self1]> (w_rooms w1) |}).

(** [_get_rules_for_event]; [None] is the [KeyError] of
    [event.content['membership']]. *)
Definition _get_rules_for_event (hs : HomeServer) (event : Event)
    (ctx : Context) (w : World) : option (nat * World) :=
  let '(l, w1) := refresh_room hs event ctx w in
  if String.eqb (ev_type event) "m.room.member" then
    match ev_content event !! "membership" with
    | None => None
    | Some membership =>
        if String.eqb membership "invite"
           && truthy_str (ev_state_key event)
           && is_mine_id hs (default "" (ev_state_key event))
           && user_has_pusher hs (default "" (ev_state_key event))
        then
          let invited := default "" (ev_state_key event) in
          let '(l2, h2) := alloc_dict (deref (w_heap w1) l) (w_heap w1) in
          Some (l2,
                {| w_heap :=
                     store_dict l2
                       (<[invited := get_push_rules_for_user hs invited]>
                          (deref h2 l2)) h2;
                   w_rooms := w_rooms w1 |})
        else Some (l, w1)
    end
  else Some (l, w1).

(** [[(u, False) for u in rules_by_user.iterkeys()]] *)
Definition user_tuples (rules_by_user : gmap string (list Rule))
    : list (string * bool) :=
  (λ u, (u, false)) <$> (map_to_list rules_by_user).*1.

(** [action_for_event_by_user].  The users are taken in the order of
    [map_to_list], one order among those [iteritems] may use, and the
    mapping is read once; what is proved about the loop is proved of
    [user_loop], for every list of items. *)
Definition action_for_event_by_user (hs : HomeServer) (event : Event)
    (ctx : Context) (w : World)
    : option (gmap string (list Action) * World) :=
  match _get_rules_for_event hs event ctx w with
  | None => None
  | Some (l, w1) =>
      let items := map_to_list (deref (w_heap w1) l) in
      let filtered_by_user :=
        filter_events_for_clients_context hs
          (user_tuples (deref (w_heap w1) l)) [event] ctx in
      let room_members := get_joined_users_from_context hs event ctx in
      let matches := evaluator_matches hs event (size room_members) in
      match user_loop event matches filtered_by_user room_members items (∅, ∅) with
      | Some (actions_by_user, _) => Some (actions_by_user, w1)
      | None => None
      end
  end.

(** ** The invariant of an entry and its suspended refreshes

    References are allocated, the dictionary of a suspended refresh is
    neither the entry's nor that of another suspended refresh, and a
    captured sequence never exceeds the current one. *)
Definition sys_inv (s : System) : Prop :=
  rules_by_user (sys_self s) < next_obj (sys_heap s)
  ∧ (∀ o, state_group (sys_self s) = Sentinel o → o < next_obj (sys_heap s))
  ∧ (∀ p, p ∈ sys_pending s →
       p_ret p < next_obj (sys_heap s)
       ∧ p_ret p ≠ rules_by_user (sys_self s)
       ∧ (p_sequence p ≤ sequence (sys_self s))%Z)
  ∧ NoDup (p_ret <$> sys_pending s).

(** The rules a user's evaluation passes over before it settles: each is
    disabled, or its condition chain fails.  The condition cache is threaded
    through the chains that are run. *)
Inductive rejects (matches : Condition → string → option string → bool)
    (uid : string) (dn : option string)
    : gmap string bool → list Rule → gmap string bool → Prop :=
  | rejects_nil cache : rejects matches uid dn cache [] cache
  | rejects_disabled cache rule rules cache' :
      enabled rule = Some false →
      rejects matches uid dn cache rules cache' →
      rejects matches uid dn cache (rule :: rules) cache'
  | rejects_failed cache rule rules cache1 cache' :
      enabled rule ≠ Some false →
      _condition_checker matches (conditions rule) uid dn cache = (false, cache1) →
      rejects matches uid dn cache1 rules cache' →
      rejects matches uid dn cache (rule :: rules) cache'.

(** Full resolution: every membership entry of the context whose user is
    local and not claimed by an application service, keyed by user id. *)
Definition all_member_event_ids (hs : HomeServer) (ctx : Context)
    : gmap string string :=
  fold_left
    (λ missing item,
       if String.eqb item.1.1 EventTypes_Member
          && is_mine_id hs item.1.2
          && negb (get_if_app_services_interested_in_user hs item.1.2)
       then <[item.1.2 := item.2]> missing
       else missing)
    (ctx_current_state_ids ctx) ∅.

(** The number of invalidations in a run. *)
Definition is_invalidation (op : SysOp) : bool :=
  match op with
  | DoInvalidateAll => true
  | _ => false
  end.

Definition count_invalidations (ops : list SysOp) : nat :=
  length (List.filter is_invalidation ops).

(** A well-formed world: the registry files every entry under its own room
    id, the dictionary of every entry is allocated, and two rooms never
    share a dictionary. *)
Definition world_wf (w : World) : Prop :=
  ∀ rid r, w_rooms w !! rid = Some r →
    room_id r = rid
    ∧ rules_by_user r < next_obj (w_heap w)
    ∧ ∀ rid' r', rid' ≠ rid → w_rooms w !! rid' = Some r' →
                 rules_by_user r' ≠ rules_by_user r.

(** ** Concrete collaborators for the examples

    A store given by tables: the rows of [room_memberships], the users with
    a pusher, the users with a read receipt, and the rules per user.  Every
    user is local, none belongs to an application service, every user sees
    every event, and a condition matches exactly when it has no fields. *)
Definition table_hs (rows : list Row) (pushers receipts : list string)
    (rules : gmap string (list Rule)) : HomeServer := {|
  is_mine_id := λ _, true;
  get_if_app_services_interested_in_user := λ _, false;
  _simple_select_many_batch := λ ids,
    List.filter (λ r, bool_decide (row_event_id r ∈ ids)) rows;
  get_if_users_have_pushers := λ s,
    list_to_map ((λ u, (u, bool_decide (u ∈ pushers))) <$> elements s);
  get_users_with_read_receipts_in_room := λ _, receipts;
  bulk_get_push_rules := λ s,
    list_to_map ((λ u, (u, rules !! u)) <$> elements s);
  user_has_pusher := λ u, bool_decide (u ∈ pushers);
  get_push_rules_for_user := λ u, default [] (rules !! u);
  filter_events_for_clients_context := λ user_tuples events _,
    list_to_map ((λ ut, (ut.1, events)) <$> user_tuples);
  get_joined_users_from_context := λ _ _, ∅;
  evaluator_matches := λ _ _ cond _ _,
    match cond_fields cond with [] => true | _ => false end;
|}.

Definition notify_rule : Rule :=
  {| enabled := None; conditions := []; actions := [ActStr "notify"] |}.

Definition empty_heap : Heap := {| next_obj := 0; dicts := ∅ |}.

Definition member_key (uid : string) : string * string :=
  (EventTypes_Member, uid).

(** Bob's membership event [$bob1]; Bob has a pusher and one rule. *)
Definition hs_bob (membership : string) : HomeServer :=
  table_hs
    [{| row_user_id := "@bob:hs"; row_membership := membership;
        row_event_id := "$bob1" |}]
    ["@bob:hs"] [] {[ "@bob:hs" := [notify_rule] ]}.

Definition ctx_bob : Context :=
  {| ctx_state_group := Some 7%Z;
     ctx_current_state_ids := [(member_key "@bob:hs", "$bob1")] |}.

(** A room with three local users.  Bob has left ([$bob2]) and keeps a
    pusher; Carol is joined and has a pusher; Dave is joined, has no pusher
    and has sent a read receipt. *)
Definition hs_room : HomeServer :=
  table_hs
    [{| row_user_id := "@bob:hs"; row_membership := "leave";
        row_event_id := "$bob2" |};
     {| row_user_id := "@carol:hs"; row_membership := "join";
        row_event_id := "$carol1" |};
     {| row_user_id := "@dave:hs"; row_membership := "join";
        row_event_id := "$dave1" |}]
    ["@bob:hs"; "@carol:hs"] ["@dave:hs"]
    {[ "@bob:hs" := [notify_rule]; "@carol:hs" := [notify_rule];
       "@dave:hs" := [notify_rule] ]}.

Definition ctx_left : Context :=
  {| ctx_state_group := Some 7%Z;
     ctx_current_state_ids := [(member_key "@bob:hs", "$bob2")] |}.

Definition ctx_left_joined : Context :=
  {| ctx_state_group := Some 8%Z;
     ctx_current_state_ids :=
       [(member_key "@bob:hs", "$bob2"); (member_key "@carol:hs", "$carol1")] |}.

Definition ctx_dave : Context :=
  {| ctx_state_group := Some 9%Z;
     ctx_current_state_ids := [(member_key "@dave:hs", "$dave1")] |}.

(** A context without a state group; the store has no row for [$erin1]. *)
Definition ctx_no_group : Context :=
  {| ctx_state_group := None;
     ctx_current_state_ids := [(member_key "@erin:hs", "$erin1")] |}.

Definition ctx_bob_next : Context :=
  {| ctx_state_group := Some 8%Z;
     ctx_current_state_ids := [(member_key "@bob:hs", "$bob1")] |}.

Definition message_from (sender : string) : Event :=
  {| ev_event_id := "$msg"; ev_room_id := "!room"; ev_type := "m.room.message";
     ev_sender := sender; ev_state_key := None; ev_content := ∅ |}.

Definition empty_world : World := {| w_heap := empty_heap; w_rooms := ∅ |}.

(** An invite sent by Alice to Carol. *)
Definition invite_carol : Event :=
  {| ev_event_id := "$invite"; ev_room_id := "!room";
     ev_type := "m.room.member"; ev_sender := "@alice:hs";
     ev_state_key := Some "@carol:hs";
     ev_content := {[ "membership" := "invite" ]} |}.

(** Three rules: the first has a condition that does not match, the other
    two match. *)
Definition rule_no_match : Rule :=
  {| enabled := Some true;
     conditions := [{| cond_id := None;
                       cond_fields := [("kind", "event_match")] |}];
     actions := [ActStr "notify"; ActDict [("set_tweak", "sound")]] |}.

Definition rule_highlight : Rule :=
  {| enabled := None; conditions := []; actions := [ActStr "highlight"] |}.

(** * Properties *)

(** ** The heap *)

Lemma deref_store_eq l d h : deref (store_dict l d h) l = d.
Proof. unfold deref, store_dict; simpl. by rewrite lookup_insert_eq. Qed.

Lemma deref_store_ne l l' d h : l ≠ l' → deref (store_dict l d h) l' = deref h l'.
Proof. intros Hne. unfold deref, store_dict; simpl. by rewrite lookup_insert_ne. Qed.

Lemma deref_alloc_eq d h : deref (alloc_dict d h).2 (alloc_dict d h).1 = d.
Proof. unfold deref, alloc_dict; simpl. by rewrite lookup_insert_eq. Qed.

Lemma deref_alloc_ne d h l : l < next_obj h → deref (alloc_dict d h).2 l = deref h l.
Proof.
  intros Hlt. unfold deref, alloc_dict; simpl.
  rewrite lookup_insert_ne; [done | lia].
Qed.

(** ** update_cache and invalidate_all, field by field *)

Lemma update_cache_stale self h sequence0 members new_rules sg :
  sequence0 ≠ sequence self →
  update_cache self h sequence0 members new_rules sg = (self, h).
Proof. intros Hne. unfold update_cache. by rewrite bool_decide_eq_false_2. Qed.

Lemma update_cache_current self h members new_rules sg :
  update_cache self h (sequence self) members new_rules sg =
  ({| room_id := room_id self;
      member_map := members ∪ member_map self;
      rules_by_user := rules_by_user self;
      state_group := Group sg;
      sequence := sequence self |},
   store_dict (rules_by_user self)
     (new_rules ∪ deref h (rules_by_user self)) h).
Proof. unfold update_cache. by rewrite bool_decide_eq_true_2. Qed.

Lemma update_cache_frame self h sequence0 members new_rules sg :
  let r := update_cache self h sequence0 members new_rules sg in
  rules_by_user r.1 = rules_by_user self
  ∧ sequence r.1 = sequence self
  ∧ room_id r.1 = room_id self
  ∧ next_obj r.2 = next_obj h
  ∧ (∀ o, state_group r.1 = Sentinel o → state_group self = Sentinel o)
  ∧ (∀ l, l ≠ rules_by_user self → deref r.2 l = deref h l).
Proof.
  unfold update_cache. case_bool_decide; simpl.
  - repeat split; try done. intros l Hl. by rewrite deref_store_ne.
  - repeat split; done.
Qed.

Lemma sys_inv_init rid h : sys_inv (sys_init rid h).
Proof.
  unfold sys_inv, sys_init; simpl.
  split; [lia|]. split; [intros o [= <-]; lia|]. split.
  - intros p Hp. by apply elem_of_nil in Hp.
  - constructor.
Qed.

Lemma get_rules_begin_cases hs self ctx h :
  (truthy_int (ctx_state_group ctx) = true
   ∧ state_group self = Group (ctx_state_group ctx)
   ∧ get_rules_begin hs self ctx h = (Returned (rules_by_user self), h))
  ∨ ((truthy_int (ctx_state_group ctx)
      && state_group_eq (state_group self) (ctx_state_group ctx) = false)
     ∧ ∃ parts, parts = partition_state hs self (deref h (rules_by_user self)) ctx
     ∧ ((parts.2 = ∅
         ∧ get_rules_begin hs self ctx h
           = (Returned (next_obj h), (alloc_dict parts.1 h).2))
        ∨ (parts.2 ≠ ∅
           ∧ get_rules_begin hs self ctx h
             = (Suspended {| p_sequence := sequence self; p_ret := next_obj h;
                             p_missing := parts.2;
                             p_state_group := ctx_state_group ctx |},
                (alloc_dict parts.1 h).2)))).
Proof.
  unfold get_rules_begin.
  destruct (truthy_int (ctx_state_group ctx)
            && state_group_eq (state_group self) (ctx_state_group ctx)) eqn:Hfast.
  - left. apply andb_true_iff in Hfast as [Ht Heq]. split; [done|]. split; [|done].
    unfold state_group_eq in Heq. destruct (state_group self); [done|].
    apply bool_decide_eq_true in Heq. by subst.
  - right. split; [done|]. eexists; split; [done|].
    simpl. case_bool_decide; [left | right]; done.
Qed.

Lemma get_rules_resume_frame hs p self h :
  let r := get_rules_resume hs p self h in
  r.1.1 = p_ret p
  ∧ rules_by_user r.1.2 = rules_by_user self
  ∧ sequence r.1.2 = sequence self
  ∧ next_obj r.2 = next_obj h
  ∧ (∀ o, state_group r.1.2 = Sentinel o → state_group self = Sentinel o)
  ∧ (∀ l, l ≠ rules_by_user self → l ≠ p_ret p → deref r.2 l = deref h l).
Proof.
  unfold get_rules_resume, _get_rules_for_member_event_ids.
  pose proof (update_cache_frame self h (p_sequence p)
    (resolved_members hs (p_missing p))
    (fetched_rules hs self (resolved_members hs (p_missing p)))
    (p_state_group p)) as Hf.
  destruct (update_cache _ _ _ _ _ _) as [self1 h1]. simpl in *.
  destruct Hf as (? & ? & ? & ? & ? & Hd).
  repeat split; try done.
  intros l Hl1 Hl2. rewrite deref_store_ne; [by apply Hd | done].
Qed.

Lemma sys_inv_step s op : sys_inv s → sys_inv (sys_step s op).
Proof.
  intros (Hr & Hs & Hp & Hnd). destruct op as [|hs ctx|hs l]; simpl.
  - unfold sys_inv; simpl.
    split; [lia|]. split; [intros o [= <-]; lia|]. split; [|done].
    intros p Hin. apply Hp in Hin. lia.
  - destruct (get_rules_begin_cases hs (sys_self s) ctx (sys_heap s))
      as [(_ & _ & ->) | (_ & parts & _ & [[_ ->] | [_ ->]])].
    + done.
    + unfold sys_inv; simpl.
      split; [lia|]. split; [intros o Ho; apply Hs in Ho; lia|]. split; [|done].
      intros p Hin. apply Hp in Hin. lia.
    + unfold sys_inv; simpl.
      split; [lia|]. split; [intros o Ho; apply Hs in Ho; lia|]. split.
      * intros p [Hin | Hin]%elem_of_app.
        -- apply Hp in Hin. lia.
        -- apply list_elem_of_singleton in Hin as ->. simpl. lia.
      * rewrite fmap_app. apply NoDup_app.
        split; [done|]. split; [|by apply NoDup_singleton].
        intros x Hx Hx'. apply list_elem_of_singleton in Hx'. subst x.
        apply list_elem_of_fmap in Hx as (q & Hq1 & Hq2).
        apply Hp in Hq2. simpl in *. lia.
  - destruct (list_find _ _) as [[i p]|] eqn:Hfind; [|done].
    pose proof (get_rules_resume_frame hs p (sys_self s) (sys_heap s)) as Hf.
    destruct (get_rules_resume _ _ _ _) as [[l1 self1] h1]. simpl in *.
    destruct Hf as (_ & Hru & Hsq & Hn & Hsen & _).
    unfold sys_inv; simpl. rewrite Hru, Hsq, Hn.
    split; [done|]. split; [intros o Ho; by apply Hs, Hsen|]. split.
    + intros q Hin. apply list_elem_of_filter in Hin as [_ Hin]. by apply Hp in Hin.
    + eapply sublist_NoDup; [done|]. apply fmap_sublist. apply sublist_filter.
Qed.

Lemma sys_run_app s ops1 ops2 :
  sys_run s (ops1 ++ ops2) = sys_run (sys_run s ops1) ops2.
Proof. unfold sys_run. apply fold_left_app. Qed.

Lemma sys_inv_run s ops : sys_inv s → sys_inv (sys_run s ops).
Proof.
  revert s. induction ops as [|op ops IH]; intros s Hinv; [done|].
  simpl. apply IH. by apply sys_inv_step.
Qed.

Lemma reachable_inv s : reachable s → sys_inv s.
Proof. intros (rid & h & ops & ->). apply sys_inv_run, sys_inv_init. Qed.

Lemma reachable_run s ops : reachable s → reachable (sys_run s ops).
Proof.
  intros (rid & h & ops0 & ->). exists rid, h, (ops0 ++ ops).
  by rewrite sys_run_app.
Qed.

(** The sequence number only ever grows, and an invalidation makes it grow. *)
Lemma sys_step_sequence s op :
  (sequence (sys_self s) ≤ sequence (sys_self (sys_step s op)))%Z
  ∧ (op = DoInvalidateAll →
     sequence (sys_self (sys_step s op)) = (sequence (sys_self s) + 1)%Z).
Proof.
  destruct op as [|hs ctx|hs l]; simpl.
  - split; [lia | done].
  - split; [|done]. by destruct (get_rules_begin _ _ _ _) as [[?|?] ?].
  - split; [|done]. destruct (list_find _ _) as [[i p]|]; [|done].
    pose proof (get_rules_resume_frame hs p (sys_self s) (sys_heap s)) as Hf.
    destruct (get_rules_resume _ _ _ _) as [[l1 self1] h1]. simpl in *.
    destruct Hf as (_ & _ & -> & _). done.
Qed.

Lemma sys_run_sequence s ops :
  (sequence (sys_self s) ≤ sequence (sys_self (sys_run s ops)))%Z
  ∧ (DoInvalidateAll ∈ ops →
     (sequence (sys_self s) < sequence (sys_self (sys_run s ops)))%Z).
Proof.
  revert s. induction ops as [|op ops IH]; intros s; simpl.
  - split; [done|]. intros Hin. by apply elem_of_nil in Hin.
  - destruct (IH (sys_step s op)) as [IH1 IH2].
    destruct (sys_step_sequence s op) as [Hle Hinv].
    split; [lia|]. intros [<- | Hin]%elem_of_cons.
    + rewrite Hinv in IH1 by done. lia.
    + apply IH2 in Hin. lia.
Qed.

(** A suspended refresh stays suspended, and its dictionary untouched,
    until it is resumed. *)
Lemma pending_step s op p :
  sys_inv s → p ∈ sys_pending s → (∀ hs, op ≠ DoResume hs (p_ret p)) →
  p ∈ sys_pending (sys_step s op)
  ∧ deref (sys_heap (sys_step s op)) (p_ret p) = deref (sys_heap s) (p_ret p).
Proof.
  intros (Hr & Hs & Hp & Hnd) Hin Hop. destruct (Hp p Hin) as (Hlt & Hne & _).
  destruct op as [|hs ctx|hs l]; simpl.
  - split; [done|]. unfold deref; simpl. rewrite lookup_insert_ne; [done | lia].
  - destruct (get_rules_begin_cases hs (sys_self s) ctx (sys_heap s))
      as [(_ & _ & ->) | (_ & parts & _ & [[_ ->] | [_ ->]])]; simpl.
    + done.
    + split; [done|]. by apply deref_alloc_ne.
    + split; [apply elem_of_app; by left|]. by apply deref_alloc_ne.
  - destruct (list_find _ _) as [[i q]|] eqn:Hfind; [|done].
    apply list_find_Some in Hfind as (_ & Hq & _).
    pose proof (get_rules_resume_frame hs q (sys_self s) (sys_heap s)) as Hf.
    destruct (get_rules_resume _ _ _ _) as [[l1 self1] h1]. simpl in *.
    destruct Hf as (_ & _ & _ & _ & _ & Hd).
    assert (p_ret p ≠ l) as Hpl by (intros <-; by apply (Hop hs)).
    split.
    + apply list_elem_of_filter. done.
    + apply Hd; [done | congruence].
Qed.

Lemma pending_run s ops p :
  sys_inv s → p ∈ sys_pending s → (∀ hs, DoResume hs (p_ret p) ∉ ops) →
  p ∈ sys_pending (sys_run s ops)
  ∧ deref (sys_heap (sys_run s ops)) (p_ret p) = deref (sys_heap s) (p_ret p).
Proof.
  revert s. induction ops as [|op ops IH]; intros s Hinv Hin Hops; [done|].
  simpl. destruct (pending_step s op p Hinv Hin) as [Hin1 Hd1].
  { intros hs ->. apply (Hops hs). by left. }
  destruct (IH (sys_step s op)) as [Hin2 Hd2].
  - by apply sys_inv_step.
  - done.
  - intros hs Hx. apply (Hops hs). by right.
  - split; [done|]. by rewrite Hd2.
Qed.

(** Resuming the refresh that owns dictionary [l] runs [get_rules_resume]
    on it. *)
Lemma sys_step_resume s hs p :
  sys_inv s → p ∈ sys_pending s →
  sys_step s (DoResume hs (p_ret p)) =
  {| sys_self := (get_rules_resume hs p (sys_self s) (sys_heap s)).1.2;
     sys_heap := (get_rules_resume hs p (sys_self s) (sys_heap s)).2;
     sys_pending := filter (λ q, p_ret q ≠ p_ret p) (sys_pending s) |}.
Proof.
  intros (_ & _ & _ & Hnd) Hin. simpl.
  destruct (list_find _ _) as [[i q]|] eqn:Hfind.
  - apply list_find_Some in Hfind as (Hi & Hq & _).
    assert (q = p) as ->.
    { apply list_elem_of_lookup in Hin as [j Hj].
      assert (i = j) as ->; [|congruence].
      eapply NoDup_lookup; [exact Hnd| |].
      - rewrite list_lookup_fmap, Hi. simpl. by rewrite Hq.
      - by rewrite list_lookup_fmap, Hj. }
    by destruct (get_rules_resume _ _ _ _) as [[? ?] ?].
  - apply list_find_None in Hfind. rewrite Forall_forall in Hfind.
    by destruct (Hfind p Hin).
Qed.

(** ** C1: a stale refresh is discarded, its caller still gets the result *)

(** What [get_rules_resume] leaves behind, by the outcome of the sequence
    check in [update_cache]. *)
Lemma get_rules_resume_spec hs p self h :
  p_ret p ≠ rules_by_user self →
  let members := resolved_members hs (p_missing p) in
  let computed := fetched_rules hs self members in
  let r := get_rules_resume hs p self h in
  r.1.1 = p_ret p
  ∧ deref r.2 (p_ret p) = computed ∪ deref h (p_ret p)
  ∧ (sequence self ≠ p_sequence p →
     r.1.2 = self
     ∧ deref r.2 (rules_by_user self) = deref h (rules_by_user self))
  ∧ (sequence self = p_sequence p →
     member_map r.1.2 = members ∪ member_map self
     ∧ rules_by_user r.1.2 = rules_by_user self
     ∧ deref r.2 (rules_by_user self) = computed ∪ deref h (rules_by_user self)
     ∧ state_group r.1.2 = Group (p_state_group p)).
Proof.
  intros Hne members computed.
  unfold get_rules_resume, _get_rules_for_member_event_ids.
  fold members. fold computed.
  destruct (decide (p_sequence p = sequence self)) as [Heq | Hneq].
  - rewrite Heq, update_cache_current. simpl.
    split; [done|]. split.
    { rewrite deref_store_eq, deref_store_ne; done. }
    split; [intros Hx; by destruct Hx|]. intros _.
    split; [done|]. split; [done|]. split; [|done].
    rewrite deref_store_ne by done. by rewrite deref_store_eq.
  - rewrite update_cache_stale by done. simpl.
    split; [done|]. split; [by rewrite deref_store_eq|].
    split; [|intros Hx; by destruct Hneq]. intros _.
    split; [done|]. by rewrite deref_store_ne.
Qed.

(** C1.  A refresh of a reachable entry suspends with captured sequence
    [p_sequence p]; any operations other than its own resumption run; it
    is then resumed against the store [hs'].  If an [invalidate_all] ran in
    between, the sequence at commit differs from the captured one.  When it
    differs, the entry ([member_map], the reference [rules_by_user] and the
    dictionary behind it, [state_group], [sequence]) is exactly what it was
    before the resumption, and the caller still receives the reused rules
    updated with the newly fetched ones.  When it is equal, the fetched
    members and rules are merged and [state_group] becomes the context's. *)
Theorem stale_refresh_discarded s0 hs ctx p h1 ops hs' :
  reachable s0 →
  get_rules_begin hs (sys_self s0) ctx (sys_heap s0) = (Suspended p, h1) →
  (∀ hs'', DoResume hs'' (p_ret p) ∉ ops) →
  let reused :=
    (partition_state hs (sys_self s0)
       (deref (sys_heap s0) (rules_by_user (sys_self s0))) ctx).1 in
  let s2 := sys_run (sys_step s0 (DoBegin hs ctx)) ops in
  let s3 := sys_step s2 (DoResume hs' (p_ret p)) in
  let members := resolved_members hs' (p_missing p) in
  let computed := fetched_rules hs' (sys_self s2) members in
  (DoInvalidateAll ∈ ops → sequence (sys_self s2) ≠ p_sequence p)
  ∧ (get_rules_resume hs' p (sys_self s2) (sys_heap s2)).1.1 = p_ret p
  ∧ deref (sys_heap s3) (p_ret p) = computed ∪ reused
  ∧ (sequence (sys_self s2) ≠ p_sequence p →
     sys_self s3 = sys_self s2
     ∧ deref (sys_heap s3) (rules_by_user (sys_self s2))
       = deref (sys_heap s2) (rules_by_user (sys_self s2)))
  ∧ (sequence (sys_self s2) = p_sequence p →
     member_map (sys_self s3) = members ∪ member_map (sys_self s2)
     ∧ rules_by_user (sys_self s3) = rules_by_user (sys_self s2)
     ∧ deref (sys_heap s3) (rules_by_user (sys_self s2))
       = computed ∪ deref (sys_heap s2) (rules_by_user (sys_self s2))
     ∧ state_group (sys_self s3) = Group (ctx_state_group ctx)).
Proof.
  intros Hreach Hbegin Hops reused s2 s3 members computed.
  pose proof (reachable_inv _ Hreach) as Hinv0.
  set (s1 := sys_step s0 (DoBegin hs ctx)) in *.
  assert (sys_inv s1) as Hinv1 by by apply sys_inv_step.
  destruct (get_rules_begin_cases hs (sys_self s0) ctx (sys_heap s0))
    as [(_ & _ & Hb) | (_ & parts & Hparts & [[_ Hb] | [_ Hb]])];
    rewrite Hb in Hbegin; try done.
  injection Hbegin as <- <-.
  assert (sys_self s1 = sys_self s0 ∧ sys_pending s1 = sys_pending s0 ++
            [{| p_sequence := sequence (sys_self s0); p_ret := next_obj (sys_heap s0);
                p_missing := parts.2; p_state_group := ctx_state_group ctx |}]
          ∧ sys_heap s1 = (alloc_dict parts.1 (sys_heap s0)).2) as (Hself1 & Hpend1 & Hheap1).
  { unfold s1; simpl. by rewrite Hb. }
  set (p := {| p_sequence := sequence (sys_self s0); p_ret := next_obj (sys_heap s0);
               p_missing := parts.2; p_state_group := ctx_state_group ctx |}) in *.
  assert (p ∈ sys_pending s1) as Hin1.
  { rewrite Hpend1. apply elem_of_app. right. by apply list_elem_of_singleton. }
  destruct (pending_run s1 ops p Hinv1 Hin1 Hops) as [Hin2 Hd2]. fold s2 in Hin2, Hd2.
  assert (sys_inv s2) as Hinv2 by by apply sys_inv_run.
  assert (deref (sys_heap s2) (p_ret p) = reused) as Hreused.
  { rewrite Hd2, Hheap1. unfold reused. rewrite <- Hparts.
    apply (deref_alloc_eq parts.1 (sys_heap s0)). }
  pose proof Hinv2 as (Hr2 & Hs2 & Hp2 & Hnd2).
  destruct (Hp2 p Hin2) as (_ & Hne2 & _).
  pose proof (get_rules_resume_spec hs' p (sys_self s2) (sys_heap s2) Hne2)
    as (Hret & Hdict & Hstale & Hcur).
  assert (s3 = {| sys_self := (get_rules_resume hs' p (sys_self s2) (sys_heap s2)).1.2;
                  sys_heap := (get_rules_resume hs' p (sys_self s2) (sys_heap s2)).2;
                  sys_pending := filter (λ q, p_ret q ≠ p_ret p) (sys_pending s2) |}) as ->.
  { by apply (sys_step_resume s2 hs' p). }
  cbn [sys_self sys_heap]. split.
  { intros Hinval. destruct (sys_run_sequence s1 ops) as [_ Hlt].
    apply Hlt in Hinval. fold s2 in Hinval. rewrite Hself1 in Hinval.
    change (p_sequence p) with (sequence (sys_self s0)). lia. }
  split; [done|]. split; [by rewrite Hdict, Hreused|]. split; done.
Qed.

Lemma stale_refresh_discarded_witness :
  let s0 := sys_init "!room" empty_heap in
  let hs := hs_bob "join" in
  let s2 := sys_run (sys_step s0 (DoBegin hs ctx_bob)) [DoInvalidateAll] in
  let s3 := sys_step s2 (DoResume hs 2) in
  sequence (sys_self s2) ≠ 0%Z
  ∧ sys_self s3 = sys_self s2
  ∧ deref (sys_heap s3) 2 = {[ "@bob:hs" := [notify_rule] ]}.
Proof.
  intros s0 hs s2 s3.
  pose (p := {| p_sequence := 0; p_ret := 2;
                p_missing := {[ "@bob:hs" := "$bob1" ]};
                p_state_group := Some 7%Z |}).
  assert (reachable s0) as Hreach by (by exists "!room", empty_heap, []).
  assert (get_rules_begin hs (sys_self s0) ctx_bob (sys_heap s0)
          = (Suspended p, (get_rules_begin hs (sys_self s0) ctx_bob (sys_heap s0)).2))
    as Hbegin by (vm_compute; reflexivity).
  assert (∀ hs'', DoResume hs'' (p_ret p) ∉ [DoInvalidateAll]) as Hops.
  { intros hs'' Hin. apply list_elem_of_singleton in Hin. discriminate. }
  destruct (stale_refresh_discarded s0 hs ctx_bob p _ [DoInvalidateAll] hs
              Hreach Hbegin Hops) as (Hseq & _ & Hret & Hstale & _).
  assert (DoInvalidateAll ∈ [DoInvalidateAll]) as Hin by (by apply list_elem_of_singleton).
  specialize (Hseq Hin). destruct (Hstale Hseq) as [Hself _].
  split; [exact Hseq|]. split; [exact Hself|].
  etrans; [exact Hret|]. vm_compute. reflexivity.
Defined.

(** ** C9: between invalidations the cache only grows *)

Lemma update_cache_monotone self h sequence0 members new_rules sg :
  let r := update_cache self h sequence0 members new_rules sg in
  dom (member_map self) ⊆ dom (member_map r.1)
  ∧ dom (deref h (rules_by_user self)) ⊆ dom (deref r.2 (rules_by_user self)).
Proof.
  unfold update_cache. case_bool_decide; simpl; [|done].
  rewrite deref_store_eq, !dom_union_L. set_solver.
Qed.

Lemma monotone_step s op :
  sys_inv s → op ≠ DoInvalidateAll →
  rules_by_user (sys_self (sys_step s op)) = rules_by_user (sys_self s)
  ∧ dom (member_map (sys_self s)) ⊆ dom (member_map (sys_self (sys_step s op)))
  ∧ dom (deref (sys_heap s) (rules_by_user (sys_self s)))
    ⊆ dom (deref (sys_heap (sys_step s op)) (rules_by_user (sys_self s))).
Proof.
  intros (Hr & Hs & Hp & Hnd) Hop.
  destruct op as [|hs ctx|hs l]; [done| |]; unfold sys_step.
  - destruct (get_rules_begin_cases hs (sys_self s) ctx (sys_heap s))
      as [(_ & _ & ->) | (_ & parts & _ & [[_ ->] | [_ ->]])];
      cbn [sys_self sys_heap].
    + done.
    + by rewrite deref_alloc_ne.
    + by rewrite deref_alloc_ne.
  - destruct (list_find _ _) as [[i p]|] eqn:Hfind; [|done].
    apply list_find_Some in Hfind as (Hi & _ & _).
    apply list_elem_of_lookup_2 in Hi. destruct (Hp p Hi) as (_ & Hne & _).
    unfold get_rules_resume, _get_rules_for_member_event_ids.
    pose proof (update_cache_monotone (sys_self s) (sys_heap s) (p_sequence p)
      (resolved_members hs (p_missing p))
      (fetched_rules hs (sys_self s) (resolved_members hs (p_missing p)))
      (p_state_group p)) as [Hm Hd].
    pose proof (update_cache_frame (sys_self s) (sys_heap s) (p_sequence p)
      (resolved_members hs (p_missing p))
      (fetched_rules hs (sys_self s) (resolved_members hs (p_missing p)))
      (p_state_group p)) as (Hru & _).
    destruct (update_cache _ _ _ _ _ _) as [self1 h1]. simpl in *.
    split; [done|]. split; [done|]. by rewrite deref_store_ne.
Qed.

(** C9.  Along any run of a reachable entry that contains no
    [invalidate_all] (refreshes starting, suspending and committing in any
    order), [self.rules_by_user] stays the same dictionary, every user in it
    stays in it, and every event id in [member_map] stays in it. *)
Theorem commits_only_add s ops :
  reachable s → DoInvalidateAll ∉ ops →
  let s' := sys_run s ops in
  rules_by_user (sys_self s') = rules_by_user (sys_self s)
  ∧ dom (member_map (sys_self s)) ⊆ dom (member_map (sys_self s'))
  ∧ dom (deref (sys_heap s) (rules_by_user (sys_self s)))
    ⊆ dom (deref (sys_heap s') (rules_by_user (sys_self s'))).
Proof.
  intros Hreach. apply reachable_inv in Hreach. revert s Hreach.
  induction ops as [|op ops IH]; intros s Hinv Hops; simpl; [done|].
  destruct (monotone_step s op Hinv) as (Hru & Hm & Hd).
  { intros ->. apply Hops. by left. }
  destruct (IH (sys_step s op)) as (Hru' & Hm' & Hd').
  - by apply sys_inv_step.
  - intros Hin. apply Hops. by right.
  - simpl in *. split; [congruence|]. split; [by etrans|].
    rewrite Hru in Hd'. rewrite Hru'. rewrite Hru' in Hd'. by etrans.
Qed.

Lemma commits_only_add_witness :
  let s := sys_run (sys_init "!room" empty_heap)
             [DoBegin hs_room ctx_left; DoResume hs_room 2] in
  let s' := sys_run s [DoBegin hs_room ctx_left_joined; DoResume hs_room 3] in
  dom (deref (sys_heap s) (rules_by_user (sys_self s))) = {[ "@bob:hs" ]}
  ∧ dom (member_map (sys_self s)) = {[ "$bob2" ]}
  ∧ dom (deref (sys_heap s') (rules_by_user (sys_self s')))
    = {[ "@bob:hs"; "@carol:hs" ]}
  ∧ dom (member_map (sys_self s')) = {[ "$bob2"; "$carol1" ]}
  ∧ rules_by_user (sys_self s') = rules_by_user (sys_self s)
  ∧ dom (member_map (sys_self s)) ⊆ dom (member_map (sys_self s'))
  ∧ dom (deref (sys_heap s) (rules_by_user (sys_self s)))
    ⊆ dom (deref (sys_heap s') (rules_by_user (sys_self s'))).
Proof.
  intros s s'.
  assert (reachable s) as Hreach by (by eexists "!room", empty_heap, _).
  assert (DoInvalidateAll ∉
            [DoBegin hs_room ctx_left_joined; DoResume hs_room 3]) as Hops.
  { intros Hin. apply elem_of_cons in Hin as [? | Hin]; [done|].
    apply list_elem_of_singleton in Hin. done. }
  split; [vm_compute; reflexivity|]. split; [vm_compute; reflexivity|].
  split; [vm_compute; reflexivity|]. split; [vm_compute; reflexivity|].
  exact (commits_only_add s _ Hreach Hops).
Defined.

(** ** C5: invalidation resets the entry *)

Lemma partition_state_cold hs self cached ctx :
  member_map self = ∅ →
  partition_state hs self cached ctx = (∅, all_member_event_ids hs ctx).
Proof.
  intros Hmm. unfold partition_state, all_member_event_ids.
  generalize (∅ : gmap string (list Rule)) (∅ : gmap string string).
  induction (ctx_current_state_ids ctx) as [|[key event_id] items IH];
    intros ret missing; [done|].
  cbn [fold_left]. unfold classify at 2. rewrite Hmm, lookup_empty. simpl.
  destruct (String.eqb key.1 EventTypes_Member); simpl; [|apply IH].
  destruct (is_mine_id hs key.2); simpl; [|apply IH].
  destruct (get_if_app_services_interested_in_user hs key.2); simpl; apply IH.
Qed.

(** C5.  [invalidate_all] on a reachable entry: the sequence grows by one,
    [member_map] and the dictionary behind [rules_by_user] are empty,
    [state_group] is a sentinel that is a newly allocated object, different
    from the previous value of [state_group] and equal to no context's
    state group.  The next refresh, whatever its context, does not take the
    fast path, reuses nothing, and resolves every local membership entry of
    the context. *)
Theorem invalidate_all_resets s :
  reachable s →
  let s' := sys_step s DoInvalidateAll in
  sequence (sys_self s') = (sequence (sys_self s) + 1)%Z
  ∧ member_map (sys_self s') = ∅
  ∧ deref (sys_heap s') (rules_by_user (sys_self s')) = ∅
  ∧ state_group (sys_self s') = Sentinel (next_obj (sys_heap s))
  ∧ state_group (sys_self s') ≠ state_group (sys_self s)
  ∧ (∀ o, o < next_obj (sys_heap s) → state_group (sys_self s') ≠ Sentinel o)
  ∧ (∀ g, state_group_eq (state_group (sys_self s')) g = false)
  ∧ (∀ hs ctx,
       let missing := all_member_event_ids hs ctx in
       let l := next_obj (sys_heap s') in
       let r := get_rules_begin hs (sys_self s') ctx (sys_heap s') in
       deref r.2 l = ∅
       ∧ r.1 = if bool_decide (missing = ∅) then Returned l
               else Suspended {| p_sequence := (sequence (sys_self s) + 1)%Z;
                                 p_ret := l; p_missing := missing;
                                 p_state_group := ctx_state_group ctx |}).
Proof.
  intros Hreach s'. apply reachable_inv in Hreach as (Hr & Hs & _).
  unfold s'; simpl.
  split; [done|]. split; [done|]. split.
  { unfold deref; simpl. by rewrite lookup_insert_eq. }
  split; [done|]. split.
  { intros Heq. symmetry in Heq. apply Hs in Heq. lia. }
  split; [intros o Ho [= Heq]; lia|].
  split; [done|]. intros hs ctx.
  unfold get_rules_begin. cbn [state_group state_group_eq].
  rewrite andb_false_r. rewrite partition_state_cold by done.
  cbn [fst snd]. case_bool_decide; simpl; split; try done.
  all: unfold deref; simpl; by rewrite lookup_insert_eq.
Qed.

Lemma invalidate_all_resets_witness :
  let s := sys_run (sys_init "!room" empty_heap)
             [DoBegin (hs_bob "join") ctx_bob; DoResume (hs_bob "join") 2] in
  let s' := sys_step s DoInvalidateAll in
  deref (sys_heap s) (rules_by_user (sys_self s)) = {[ "@bob:hs" := [notify_rule] ]}
  ∧ state_group (sys_self s) = Group (Some 7%Z)
  ∧ sequence (sys_self s') = 1%Z
  ∧ deref (sys_heap s') (rules_by_user (sys_self s')) = ∅
  ∧ (get_rules_begin (hs_bob "join") (sys_self s') ctx_bob (sys_heap s')).1
    = Suspended {| p_sequence := 1; p_ret := 5;
                   p_missing := {[ "@bob:hs" := "$bob1" ]};
                   p_state_group := Some 7%Z |}.
Proof.
  intros s s'.
  assert (reachable s) as Hreach by (by eexists "!room", empty_heap, _).
  destruct (invalidate_all_resets s Hreach) as (Hseq & _ & Hd & _ & _ & _ & _ & Hnext).
  split; [vm_compute; reflexivity|]. split; [vm_compute; reflexivity|].
  split; [exact Hseq|]. split; [exact Hd|].
  destruct (Hnext (hs_bob "join") ctx_bob) as [_ Hb].
  etrans; [exact Hb|]. vm_compute. reflexivity.
Defined.

(** ** C3: a refresh with nothing missing *)

(** C3, as amended.  On the slow path, when no membership entry of the
    context is missing, [get_rules] returns a new dictionary holding exactly
    the rules reused from the cache, and commits nothing: the entry
    ([state_group] included) and the cached dictionary are as before. *)
Theorem no_missing_returns_reused hs self ctx h :
  rules_by_user self < next_obj h →
  truthy_int (ctx_state_group ctx)
    && state_group_eq (state_group self) (ctx_state_group ctx) = false →
  let parts := partition_state hs self (deref h (rules_by_user self)) ctx in
  parts.2 = ∅ →
  let r := get_rules hs self ctx h in
  deref r.2 r.1.1 = parts.1
  ∧ r.1.1 ≠ rules_by_user self
  ∧ r.1.2 = self
  ∧ deref r.2 (rules_by_user self) = deref h (rules_by_user self)
  ∧ (get_rules_begin hs r.1.2 ctx r.2).1 ≠ Returned (rules_by_user r.1.2).
Proof.
  intros Hlt Hslow parts Hnone r.
  assert (get_rules hs self ctx h = (next_obj h, self, (alloc_dict parts.1 h).2))
    as Hr.
  { unfold get_rules, get_rules_begin. rewrite Hslow. fold parts.
    by rewrite bool_decide_eq_true_2 by done. }
  unfold r. rewrite Hr. cbn [fst snd].
  split; [apply (deref_alloc_eq parts.1 h)|]. split; [lia|].
  split; [done|]. split; [by apply (deref_alloc_ne parts.1 h)|].
  destruct (get_rules_begin_cases hs self ctx (alloc_dict parts.1 h).2)
    as [(Ht & Hsg & _) | (_ & parts' & _ & [[_ ->] | [_ ->]])]; cbn [fst].
  - rewrite Ht, Hsg in Hslow. simpl in Hslow.
    by rewrite bool_decide_eq_true_2 in Hslow.
  - intros [= Heq]. simpl in Heq. lia.
  - done.
Qed.

Lemma no_missing_returns_reused_witness :
  let s := sys_run (sys_init "!room" empty_heap)
             [DoBegin (hs_bob "join") ctx_bob; DoResume (hs_bob "join") 2] in
  let r := get_rules (hs_bob "join") (sys_self s) ctx_bob_next (sys_heap s) in
  deref r.2 r.1.1 = {[ "@bob:hs" := [notify_rule] ]}
  ∧ r.1.2 = sys_self s
  ∧ state_group r.1.2 = Group (Some 7%Z).
Proof.
  intros s r.
  assert (rules_by_user (sys_self s) < next_obj (sys_heap s)) as Hlt
    by (vm_compute; lia).
  destruct (no_missing_returns_reused (hs_bob "join") (sys_self s) ctx_bob_next
              (sys_heap s) Hlt) as (Hret & _ & Hself & _ & _).
  - vm_compute. reflexivity.
  - vm_compute. reflexivity.
  - split; [etrans; [exact Hret | vm_compute; reflexivity]|].
    split; [exact Hself|]. vm_compute. reflexivity.
Defined.

(** The entry was committed for state group 7 and knows Bob's membership
    event.  A context with state group 8 and the same membership entry has
    nothing missing, and after the refresh [state_group] is still 7, so a
    further refresh with the same context is not answered by the fast
    path. *)
Lemma no_missing_no_commit_counterexample :
  let s := sys_run (sys_init "!room" empty_heap)
             [DoBegin (hs_bob "join") ctx_bob; DoResume (hs_bob "join") 2] in
  let r := get_rules (hs_bob "join") (sys_self s) ctx_bob_next (sys_heap s) in
  (partition_state (hs_bob "join") (sys_self s)
     (deref (sys_heap s) (rules_by_user (sys_self s))) ctx_bob_next).2 = ∅
  ∧ state_group r.1.2 ≠ Group (ctx_state_group ctx_bob_next)
  ∧ (get_rules_begin (hs_bob "join") r.1.2 ctx_bob_next r.2).1
    ≠ Returned (rules_by_user r.1.2).
Proof.
  intros s r. split; [vm_compute; reflexivity|]. split.
  - vm_compute. discriminate.
  - vm_compute. discriminate.
Qed.

(** ** C4: whose rules are fetched *)

Lemma elem_of_add_receipt_users interested receipts user_ids uid :
  uid ∈ add_receipt_users interested receipts user_ids
  ↔ uid ∈ user_ids ∨ (uid ∈ receipts ∧ uid ∈ interested).
Proof.
  unfold add_receipt_users. revert user_ids.
  induction receipts as [|u receipts IH]; intros user_ids; simpl.
  - split; [by left|]. intros [? | [Hin _]]; [done|]. by apply elem_of_nil in Hin.
  - rewrite IH. case_bool_decide as Hu.
    + rewrite elem_of_union, elem_of_singleton, elem_of_cons.
      split; [intros [[-> | ?] | [? ?]] | intros [? | [[-> | ?] ?]]]; tauto.
    + rewrite elem_of_cons.
      split; [intros [? | [? ?]] | intros [? | [[-> | ?] ?]]]; tauto.
Qed.

Lemma elem_of_pusher_user_ids (if_users_with_pushers : gmap string bool) uid :
  uid ∈ pusher_user_ids if_users_with_pushers
  ↔ if_users_with_pushers !! uid = Some true.
Proof.
  unfold pusher_user_ids. rewrite elem_of_dom. split.
  - intros [b Hb]. apply map_lookup_filter_Some in Hb as [Hb Ht].
    simpl in Ht. by subst.
  - intros Hb. exists true. by apply map_lookup_filter_Some.
Qed.

(** C4, as amended.  The users whose rules are fetched are the users the
    pusher lookup reports with a pusher, together with every user that has a
    read receipt in the room and is among the resolved members, pusher or
    not.  A fetched user is in the mapping
    [_get_rules_for_member_event_ids] returns exactly when the store
    answers with a rule set other than [None] for that user, and is then,
    when the sequence check passes, in the committed [rules_by_user]. *)
Theorem fetched_user_ids_spec hs self members uid :
  let interested := interested_in_user_ids members in
  (uid ∈ fetched_user_ids hs self members
   ↔ get_if_users_have_pushers hs interested !! uid = Some true
     ∨ (uid ∈ get_users_with_read_receipts_in_room hs (room_id self)
        ∧ uid ∈ interested))
  ∧ (∀ rules,
       fetched_rules hs self members !! uid = Some rules
       ↔ bulk_get_push_rules hs (fetched_user_ids hs self members) !! uid
         = Some (Some rules))
  ∧ (∀ sequence0 member_event_ids sg h,
       members = resolved_members hs member_event_ids →
       let r := _get_rules_for_member_event_ids hs sequence0 member_event_ids
                  sg self h in
       r.1.1 = fetched_rules hs self members
       ∧ (sequence0 = sequence self →
          ∀ rules, fetched_rules hs self members !! uid = Some rules →
                   deref r.2 (rules_by_user self) !! uid = Some rules)).
Proof.
  intros interested. split; [|split].
  - unfold fetched_user_ids. fold interested.
    by rewrite elem_of_add_receipt_users, elem_of_pusher_user_ids.
  - intros rules. unfold fetched_rules. rewrite lookup_omap.
    destruct (bulk_get_push_rules hs _ !! uid) as [[rs|]|]; simpl;
      split; congruence.
  - intros sequence0 member_event_ids sg h -> r. unfold r.
    unfold _get_rules_for_member_event_ids.
    destruct (decide (sequence0 = sequence self)) as [-> | Hne].
    + rewrite update_cache_current. cbn [fst snd]. split; [done|].
      intros _ rules Hrules. rewrite deref_store_eq.
      by apply lookup_union_Some_l.
    + rewrite update_cache_stale by done. cbn [fst snd]. split; done.
Qed.

(** Dave has no pusher and a read receipt: his rules are fetched, returned
    and committed. *)
Lemma receipt_without_pusher_counterexample :
  let '(self, h) := RulesForRoom_init "!room" empty_heap in
  let members := resolved_members hs_room (all_member_event_ids hs_room ctx_dave) in
  let r := get_rules hs_room self ctx_dave h in
  user_has_pusher hs_room "@dave:hs" = false
  ∧ get_if_users_have_pushers hs_room (interested_in_user_ids members)
      !! "@dave:hs" = Some false
  ∧ "@dave:hs" ∈ fetched_user_ids hs_room self members
  ∧ deref r.2 r.1.1 !! "@dave:hs" = Some [notify_rule]
  ∧ deref r.2 (rules_by_user r.1.2) !! "@dave:hs" = Some [notify_rule].
Proof.
  simpl. split; [done|]. split; [vm_compute; reflexivity|].
  split; [|split; vm_compute; reflexivity].
  refine (bool_decide_unpack _ _). vm_compute. exact I.
Qed.

(** ** C10: users that are not joined *)

(** C10.  There are a store, a context and an event such that a local user
    whose membership event in the context is a leave, and who has a pusher,
    is resolved as a missing member, has their rules fetched, is in the
    mapping [get_rules] returns and in the committed [rules_by_user], and
    gets an entry from [action_for_event_by_user]. *)
Theorem left_user_is_cached_and_evaluated :
  ∃ hs ctx event uid membership_event,
    let '(self, h) := RulesForRoom_init (ev_room_id event) empty_heap in
    let r := get_rules hs self ctx h in
    is_mine_id hs uid = true
    ∧ user_has_pusher hs uid = true
    ∧ (uid, membership_event) ∈ map_to_list (all_member_event_ids hs ctx)
    ∧ resolved_members hs (all_member_event_ids hs ctx) !! membership_event
      = Some (uid, "leave")
    ∧ is_Some (deref r.2 r.1.1 !! uid)
    ∧ state_group r.1.2 = Group (ctx_state_group ctx)
    ∧ is_Some (deref r.2 (rules_by_user r.1.2) !! uid)
    ∧ (action_for_event_by_user hs event ctx empty_world ≫= λ res, res.1 !! uid)
      = Some [ActStr "notify"].
Proof.
  exists hs_room, ctx_left, (message_from "@alice:hs"), "@bob:hs", "$bob2".
  simpl. split; [done|]. split; [done|]. split.
  { apply elem_of_map_to_list. vm_compute. reflexivity. }
  split; [vm_compute; reflexivity|].
  split; [eexists; vm_compute; reflexivity|].
  split; [vm_compute; reflexivity|].
  split; [eexists; vm_compute; reflexivity|].
  vm_compute. reflexivity.
Qed.

(** ** C2: refreshing twice with the same context *)

Lemma reused_subseteq hs self cached ctx :
  (partition_state hs self cached ctx).1 ⊆ cached.
Proof.
  unfold partition_state.
  assert (∀ items acc, acc.1 ⊆ cached →
            (fold_left (classify hs self cached) items acc).1 ⊆ cached) as Hgen.
  { induction items as [|[key event_id] items IH]; intros acc Hacc; [done|].
    cbn [fold_left]. apply IH. unfold classify.
    destruct (member_map self !! event_id) as [[user_id state]|].
    - destruct (String.eqb state Membership_JOIN); [|done].
      destruct (cached !! user_id) as [[|r rs]|] eqn:Hc; try done.
      simpl. by apply insert_subseteq_l.
    - destruct (negb _); [done|]. destruct (negb _); [done|].
      by destruct (get_if_app_services_interested_in_user _ _). }
  apply Hgen. simpl. apply map_empty_subseteq.
Qed.

(** C2, as amended.  With a truthy state group and nothing else running,
    the second of two refreshes with the same context does not suspend (it
    makes no store lookup), and the mapping it returns contains the mapping
    the first one returned: every user of the first, with the same rules.
    It may contain more, since the fast path returns everything cached. *)
Theorem refresh_twice hs self ctx h :
  rules_by_user self < next_obj h →
  truthy_int (ctx_state_group ctx) = true →
  let r1 := get_rules hs self ctx h in
  let b2 := get_rules_begin hs r1.1.2 ctx r1.2 in
  ∃ l2, b2.1 = Returned l2 ∧ deref r1.2 r1.1.1 ⊆ deref b2.2 l2.
Proof.
  intros Hlt Htruthy r1 b2. unfold b2, r1, get_rules.
  destruct (get_rules_begin_cases hs self ctx h)
    as [(_ & Hsg & Hb) | (Hslow & parts & Hparts & [[Hnone Hb] | [Hsome Hb]])];
    rewrite Hb; cbn [fst snd].
  - exists (rules_by_user self). by rewrite Hb.
  - exists (S (next_obj h)). unfold get_rules_begin. rewrite Hslow.
    change (next_obj (alloc_dict parts.1 h).2) with (S (next_obj h)).
    rewrite (deref_alloc_ne parts.1 h) by done. rewrite <- Hparts.
    rewrite bool_decide_eq_true_2 by done. cbn [fst snd].
    split; [done|].
    unfold deref, alloc_dict; simpl. by rewrite !lookup_insert_eq.
  - set (p := {| p_sequence := sequence self; p_ret := next_obj h;
                 p_missing := parts.2; p_state_group := ctx_state_group ctx |}).
    set (h1 := (alloc_dict parts.1 h).2).
    assert (p_ret p ≠ rules_by_user self) as Hne by (simpl; lia).
    destruct (get_rules_resume_spec hs p self h1 Hne)
      as (Hret & Hdict & _ & Hcur).
    destruct (Hcur eq_refl) as (_ & Hru & Hcached & Hgroup).
    exists (rules_by_user self). unfold get_rules_begin.
    rewrite Hgroup, Htruthy. cbn [state_group_eq p_state_group p andb].
    rewrite (bool_decide_eq_true_2 (ctx_state_group ctx = ctx_state_group ctx))
      by done.
    cbn [fst snd]. rewrite Hru, Hret. split; [done|].
    rewrite Hdict, Hcached. apply map_union_mono_l.
    unfold h1. rewrite (deref_alloc_ne parts.1 h (rules_by_user self)) by done.
    change (p_ret p) with (alloc_dict parts.1 h).1.
    rewrite (deref_alloc_eq parts.1 h), Hparts.
    apply reused_subseteq.
Qed.

Lemma refresh_twice_witness :
  let '(self, h) := RulesForRoom_init "!room" empty_heap in
  let r1 := get_rules (hs_bob "join") self ctx_bob h in
  let b2 := get_rules_begin (hs_bob "join") r1.1.2 ctx_bob r1.2 in
  deref r1.2 r1.1.1 = {[ "@bob:hs" := [notify_rule] ]}
  ∧ ∃ l2, b2.1 = Returned l2 ∧ deref r1.2 r1.1.1 ⊆ deref b2.2 l2.
Proof.
  simpl. split; [vm_compute; reflexivity|].
  apply (refresh_twice (hs_bob "join")
           (RulesForRoom_init "!room" empty_heap).1 ctx_bob
           (RulesForRoom_init "!room" empty_heap).2).
  - simpl. lia.
  - reflexivity.
Defined.

(** Bob left before the entry was filled and keeps a pusher.  The context
    of state group 8 holds Bob's leave, already known to the entry, and
    Carol's join, which is missing.  The first refresh returns Carol only;
    the second, answered by the fast path, returns Bob and Carol.  And with
    a context that has no state group and a membership event the store has
    no row for, the second refresh suspends for the same lookups again. *)
Lemma refresh_twice_differs_counterexample :
  let '(self, h) := RulesForRoom_init "!room" empty_heap in
  let r0 := get_rules hs_room self ctx_left h in
  let r1 := get_rules hs_room r0.1.2 ctx_left_joined r0.2 in
  let r2 := get_rules hs_room r1.1.2 ctx_left_joined r1.2 in
  let n1 := get_rules hs_room self ctx_no_group h in
  (sequence r2.1.2 = sequence self
   ∧ dom (deref r1.2 r1.1.1) = {[ "@carol:hs" ]}
   ∧ dom (deref r2.2 r2.1.1) = {[ "@bob:hs"; "@carol:hs" ]}
   ∧ deref r1.2 r1.1.1 ≠ deref r2.2 r2.1.1)
  ∧ (sequence n1.1.2 = sequence self
     ∧ ∃ p, (get_rules_begin hs_room n1.1.2 ctx_no_group n1.2).1 = Suspended p).
Proof.
  simpl. split.
  - split; [vm_compute; reflexivity|].
    split; [vm_compute; reflexivity|]. split; [vm_compute; reflexivity|].
    vm_compute. discriminate.
  - split; [vm_compute; reflexivity|]. eexists. vm_compute. reflexivity.
Qed.

(** ** C8: the invited user is added to a copy *)

Lemma get_rules_frame hs self ctx h :
  let r := get_rules hs self ctx h in
  rules_by_user r.1.2 = rules_by_user self
  ∧ (next_obj h ≤ next_obj r.2)%nat.
Proof.
  unfold get_rules.
  destruct (get_rules_begin_cases hs self ctx h)
    as [(_ & _ & ->) | (_ & parts & _ & [[_ ->] | [_ ->]])]; simpl.
  - done.
  - split; [done | lia].
  - match goal with
    | |- context [get_rules_resume hs ?p self ?h1] =>
        pose proof (get_rules_resume_frame hs p self h1) as (_ & Hru & _ & Hn & _)
    end.
    simpl in *. split; [done|]. rewrite Hn. lia.
Qed.

(** After the refresh the room has an entry, and the dictionary of that
    entry is allocated. *)
Lemma refresh_room_allocated hs event ctx w :
  (∀ r, w_rooms w !! ev_room_id event = Some r →
        rules_by_user r < next_obj (w_heap w)) →
  let w1 := (refresh_room hs event ctx w).2 in
  ∃ r, w_rooms w1 !! ev_room_id event = Some r
       ∧ rules_by_user r < next_obj (w_heap w1).
Proof.
  intros Hwf. unfold refresh_room, _get_rules_for_room.
  destruct (w_rooms w !! ev_room_id event) as [r0|] eqn:Hroom.
  - pose proof (get_rules_frame hs r0 ctx (w_heap w)) as [Hru Hn].
    destruct (get_rules hs r0 ctx (w_heap w)) as [[l self1] h1]. simpl in *.
    exists self1. rewrite lookup_insert_eq. split; [done|].
    rewrite Hru. specialize (Hwf r0 eq_refl). lia.
  - simpl.
    match goal with
    | |- context [get_rules hs ?r0 ctx ?h0] =>
        pose proof (get_rules_frame hs r0 ctx h0) as [Hru Hn];
        destruct (get_rules hs r0 ctx h0) as [[l self1] h1]
    end.
    simpl in *. exists self1. rewrite lookup_insert_eq. split; [done|].
    rewrite Hru. lia.
Qed.

(** C8.  For an invite whose state key is a local user with a pusher,
    [_get_rules_for_event] returns a newly allocated dictionary: the mapping
    the refresh returned with the invited user's rules added.  The registry
    (so [member_map] and the reference [rules_by_user] of the room's entry)
    is what the refresh left, and so is every dictionary that existed after
    the refresh, the entry's [rules_by_user] among them. *)
Theorem invite_uses_a_copy hs event ctx w invited :
  (∀ r, w_rooms w !! ev_room_id event = Some r →
        rules_by_user r < next_obj (w_heap w)) →
  ev_type event = "m.room.member" →
  ev_content event !! "membership" = Some "invite" →
  ev_state_key event = Some invited →
  invited ≠ "" →
  is_mine_id hs invited = true →
  user_has_pusher hs invited = true →
  let l0 := (refresh_room hs event ctx w).1 in
  let w1 := (refresh_room hs event ctx w).2 in
  ∃ l w2,
    _get_rules_for_event hs event ctx w = Some (l, w2)
    ∧ deref (w_heap w2) l
      = <[invited := get_push_rules_for_user hs invited]> (deref (w_heap w1) l0)
    ∧ l = next_obj (w_heap w1)
    ∧ w_rooms w2 = w_rooms w1
    ∧ (∀ l', l' < next_obj (w_heap w1) →
             deref (w_heap w2) l' = deref (w_heap w1) l')
    ∧ ∃ r, w_rooms w2 !! ev_room_id event = Some r
           ∧ l ≠ rules_by_user r
           ∧ deref (w_heap w2) (rules_by_user r)
             = deref (w_heap w1) (rules_by_user r).
Proof.
  intros Hwf Htype Hmem Hkey Hne Hmine Hpusher l0 w1.
  destruct (refresh_room_allocated hs event ctx w Hwf) as (r & Hr & Hlt).
  fold w1 in Hr, Hlt.
  unfold _get_rules_for_event. fold l0 w1.
  rewrite (surjective_pairing (refresh_room hs event ctx w)). fold l0 w1.
  rewrite Htype, String.eqb_refl, Hmem, String.eqb_refl, Hkey.
  cbn [truthy_str default from_option]. unfold id.
  assert (String.eqb invited "" = false) as -> by by apply String.eqb_neq.
  rewrite Hmine, Hpusher. cbn [negb andb].
  eexists _, _. split; [reflexivity|].
  unfold deref, store_dict, alloc_dict; cbn [w_heap w_rooms dicts next_obj fst snd].
  assert (∀ l' d, l' < next_obj (w_heap w1) →
            <[next_obj (w_heap w1) := d]>
              (<[next_obj (w_heap w1) := deref (w_heap w1) l0]> (dicts (w_heap w1)))
              !! l' = dicts (w_heap w1) !! l') as Hframe.
  { intros l' d Hl'. rewrite !lookup_insert_ne by lia. done. }
  split; [by rewrite !lookup_insert_eq|].
  split; [done|]. split; [done|].
  split; [intros l' Hl'; unfold deref; by rewrite Hframe|].
  exists r. split; [done|]. split; [lia|]. unfold deref. by rewrite Hframe.
Qed.

Lemma invite_uses_a_copy_witness :
  let l0 := (refresh_room hs_room invite_carol ctx_left empty_world).1 in
  let w1 := (refresh_room hs_room invite_carol ctx_left empty_world).2 in
  ∃ l w2,
    _get_rules_for_event hs_room invite_carol ctx_left empty_world = Some (l, w2)
    ∧ deref (w_heap w2) l
      = <["@carol:hs" := get_push_rules_for_user hs_room "@carol:hs"]>
          (deref (w_heap w1) l0)
    ∧ l = next_obj (w_heap w1)
    ∧ w_rooms w2 = w_rooms w1
    ∧ (∀ l', l' < next_obj (w_heap w1) →
             deref (w_heap w2) l' = deref (w_heap w1) l')
    ∧ ∃ r, w_rooms w2 !! ev_room_id invite_carol = Some r
           ∧ l ≠ rules_by_user r
           ∧ deref (w_heap w2) (rules_by_user r)
             = deref (w_heap w1) (rules_by_user r).
Proof.
  apply (invite_uses_a_copy hs_room invite_carol ctx_left empty_world "@carol:hs").
  - intros r Hr. simpl in Hr. by rewrite lookup_empty in Hr.
  - reflexivity.
  - vm_compute. reflexivity.
  - reflexivity.
  - discriminate.
  - reflexivity.
  - vm_compute. reflexivity.
Defined.

(** The invite scenario, run: Carol gets an entry, the room's cached
    dictionary holds Bob only. *)
Example invite_scenario :
  (action_for_event_by_user hs_room invite_carol ctx_left empty_world
     ≫= λ res, res.1 !! "@carol:hs") = Some [ActStr "notify"]
  ∧ (action_for_event_by_user hs_room invite_carol ctx_left empty_world
       ≫= λ res, w_rooms res.2 !! "!room"
       ≫= λ r, Some (dom (deref (w_heap res.2) (rules_by_user r))))
    = Some {[ "@bob:hs" ]}.
Proof. split; vm_compute; reflexivity. Qed.

(** ** C6: first match wins, and what becomes of its actions *)

Lemma is_disabled_spec rule : is_disabled rule = true ↔ enabled rule = Some false.
Proof. unfold is_disabled. destruct (enabled rule) as [[|]|]; simpl; split; congruence. Qed.

Lemma is_action_spec name a : is_action name a = true ↔ a = ActStr name.
Proof.
  destruct a as [s|fields]; simpl.
  - rewrite String.eqb_eq. split; congruence.
  - split; congruence.
Qed.

Lemma strip_dont_notify_filter acts :
  strip_dont_notify acts = filter (λ a, a ≠ ActStr "dont_notify") acts.
Proof.
  unfold strip_dont_notify. induction acts as [|a acts IH]; [done|].
  cbn [List.filter]. rewrite filter_cons, IH.
  destruct (is_action "dont_notify" a) eqn:Ha; simpl.
  - apply is_action_spec in Ha. by rewrite decide_False by (intros Hne; by apply Hne).
  - rewrite decide_True; [done|]. intros Heq. apply is_action_spec in Heq. congruence.
Qed.

Lemma notifies_spec acts :
  notifies acts = true ↔ acts ≠ [] ∧ ActStr "notify" ∈ acts.
Proof.
  assert (existsb (is_action "notify") acts = true ↔ ActStr "notify" ∈ acts) as Hex.
  { rewrite existsb_exists. split.
    - intros (a & Hin & Ha). apply is_action_spec in Ha as ->.
      by apply list_elem_of_In.
    - intros Hin. exists (ActStr "notify"). split; [by apply list_elem_of_In|].
      by apply is_action_spec. }
  destruct acts as [|a acts]; simpl.
  - split; [done|]. by intros [? _].
  - change (is_action "notify" a || existsb (is_action "notify") acts)
      with (existsb (is_action "notify") (a :: acts)).
    rewrite Hex. split; [by split|]. by intros [_ ?].
Qed.

Lemma run_rules_rejects matches uid dn cache rules cache' :
  rejects matches uid dn cache rules cache' →
  run_rules matches rules uid dn cache = (None, cache').
Proof.
  induction 1 as [cache | cache rule rules cache' Hdis _ IH
                 | cache rule rules cache1 cache' Hen Hcc _ IH]; simpl.
  - done.
  - apply is_disabled_spec in Hdis. by rewrite Hdis.
  - destruct (is_disabled rule) eqn:Hdis.
    { apply is_disabled_spec in Hdis. done. }
    by rewrite Hcc.
Qed.

Lemma run_rules_first_match matches uid dn cache pre rule rest c1 c2 :
  rejects matches uid dn cache pre c1 →
  enabled rule ≠ Some false →
  _condition_checker matches (conditions rule) uid dn c1 = (true, c2) →
  run_rules matches (pre ++ rule :: rest) uid dn cache =
  (if notifies (strip_dont_notify (actions rule))
   then Some (strip_dont_notify (actions rule)) else None, c2).
Proof.
  intros Hrej Hen Hcc.
  induction Hrej as [cache | cache r rules cache' Hdis _ IH
                    | cache r rules cache1 cache' Hen' Hcc' _ IH]; simpl.
  - destruct (is_disabled rule) eqn:Hdis.
    { apply is_disabled_spec in Hdis. done. }
    by rewrite Hcc.
  - apply is_disabled_spec in Hdis. rewrite Hdis. by apply IH.
  - destruct (is_disabled r) eqn:Hdis.
    { apply is_disabled_spec in Hdis. done. }
    rewrite Hcc'. by apply IH.
Qed.

(** Every rule list is either rejected as a whole or has a first match. *)
Lemma rejects_or_match matches uid dn rules cache :
  (∃ c1, rejects matches uid dn cache rules c1)
  ∨ (∃ pre rule rest c1 c2,
       rules = pre ++ rule :: rest
       ∧ rejects matches uid dn cache pre c1
       ∧ enabled rule ≠ Some false
       ∧ _condition_checker matches (conditions rule) uid dn c1 = (true, c2)).
Proof.
  revert cache. induction rules as [|rule rules IH]; intros cache.
  - left. eexists. constructor.
  - destruct (decide (enabled rule = Some false)) as [Hdis | Hen].
    + destruct (IH cache) as [[c1 Hrej] | (pre & r & rest & c1 & c2 & -> & Hrej & Hr)].
      * left. exists c1. by apply rejects_disabled.
      * right. exists (rule :: pre), r, rest, c1, c2.
        split; [done|]. split; [by apply rejects_disabled | done].
    + destruct (_condition_checker matches (conditions rule) uid dn cache)
        as [[|] cache1] eqn:Hcc.
      * right. exists [], rule, rules, cache, cache1.
        split; [done|]. split; [constructor | done].
      * destruct (IH cache1)
          as [[c1 Hrej] | (pre & r & rest & c1 & c2 & -> & Hrej & Hr)].
        -- left. exists c1. by eapply rejects_failed.
        -- right. exists (rule :: pre), r, rest, c1, c2.
           split; [done|]. split; [by eapply rejects_failed | done].
Qed.

Lemma user_loop_app event matches filtered room_members xs ys st :
  user_loop event matches filtered room_members (xs ++ ys) st =
  user_loop event matches filtered room_members xs st
    ≫= user_loop event matches filtered room_members ys.
Proof.
  revert st. induction xs as [|x xs IH]; intros st; simpl; [done|].
  destruct (user_step _ _ _ _ _ _); [apply IH | done].
Qed.

Lemma user_step_frame event matches filtered room_members st item st' uid :
  user_step event matches filtered room_members st item = Some st' →
  item.1 ≠ uid → st'.1 !! uid = st.1 !! uid.
Proof.
  unfold user_step. intros Hstep Hne.
  destruct (filtered !! item.1) as [[|first more]|]; [| |done].
  - by injection Hstep as <-.
  - destruct (String.eqb (ev_sender first) item.1); [by injection Hstep as <-|].
    destruct (run_rules _ _ _ _ _) as [[acts|] cache1];
      injection Hstep as <-; simpl; [|done].
    by rewrite lookup_insert_ne.
Qed.

Lemma user_loop_frame event matches filtered room_members items st st' uid :
  user_loop event matches filtered room_members items st = Some st' →
  uid ∉ items.*1 → st'.1 !! uid = st.1 !! uid.
Proof.
  revert st. induction items as [|item items IH]; intros st Hloop Hnin; simpl in *.
  - by injection Hloop as <-.
  - destruct (user_step _ _ _ _ _ _) as [st1|] eqn:Hstep; [|done].
    rewrite (IH st1 Hloop).
    + eapply user_step_frame; [done|]. intros Heq. apply Hnin.
      rewrite <- Heq. by left.
    + intros Hin. apply Hnin. by right.
Qed.

(** C6.  Take the loop over the users at the turn of a user [uid] that
    passes the visibility and sender tests; [st0] is the state the users
    before left.  If every rule is disabled ([enabled] is [false]) or fails
    its condition chain, [uid] gets no entry.  Otherwise, for the first
    rule that is not disabled and whose chain matches, whatever the rules
    after it: with [remaining] its actions without ["dont_notify"], [uid]
    gets the entry [remaining] when [remaining] is non-empty and contains
    ["notify"], and no entry when it is not.  One of the two cases always
    applies. *)
Theorem first_match_wins event matches filtered room_members
    before uid rules after st0 abu cache_end first more :
  uid ∉ before.*1 → uid ∉ after.*1 →
  user_loop event matches filtered room_members before (∅, ∅) = Some st0 →
  user_loop event matches filtered room_members
    (before ++ (uid, rules) :: after) (∅, ∅) = Some (abu, cache_end) →
  filtered !! uid = Some (first :: more) →
  ev_sender first ≠ uid →
  let dn := display_name_for event room_members uid in
  (∀ c1, rejects matches uid dn st0.2 rules c1 → abu !! uid = None)
  ∧ (∀ pre rule rest c1 c2,
       rules = pre ++ rule :: rest →
       rejects matches uid dn st0.2 pre c1 →
       enabled rule ≠ Some false →
       _condition_checker matches (conditions rule) uid dn c1 = (true, c2) →
       let remaining := filter (λ a, a ≠ ActStr "dont_notify") (actions rule) in
       (remaining ≠ [] ∧ ActStr "notify" ∈ remaining → abu !! uid = Some remaining)
       ∧ (¬ (remaining ≠ [] ∧ ActStr "notify" ∈ remaining) → abu !! uid = None))
  ∧ ((∃ c1, rejects matches uid dn st0.2 rules c1)
     ∨ (∃ pre rule rest c1 c2,
          rules = pre ++ rule :: rest
          ∧ rejects matches uid dn st0.2 pre c1
          ∧ enabled rule ≠ Some false
          ∧ _condition_checker matches (conditions rule) uid dn c1 = (true, c2))).
Proof.
  intros Hbefore Hafter Hloop0 Hloop Hvis Hsender dn.
  assert (st0.1 !! uid = None) as Hfresh.
  { rewrite (user_loop_frame _ _ _ _ _ _ _ uid Hloop0 Hbefore). apply lookup_empty. }
  rewrite user_loop_app, Hloop0 in Hloop. cbn [mbind option_bind user_loop] in Hloop.
  assert (user_step event matches filtered room_members st0 (uid, rules)
          = Some (match (run_rules matches rules uid dn st0.2).1 with
                  | Some acts => <[uid := acts]> st0.1
                  | None => st0.1
                  end, (run_rules matches rules uid dn st0.2).2)) as Hstep.
  { unfold user_step. cbn [fst snd]. rewrite Hvis.
    apply String.eqb_neq in Hsender. rewrite Hsender. fold dn.
    by destruct (run_rules matches rules uid dn st0.2). }
  rewrite Hstep in Hloop.
  apply (user_loop_frame _ _ _ _ _ _ _ uid) in Hloop; [|done].
  cbn [fst] in Hloop.
  split; [|split].
  - intros c1 Hrej. rewrite Hloop, (run_rules_rejects _ _ _ _ _ _ Hrej). done.
  - intros pre rule rest c1 c2 -> Hrej Hen Hcc remaining.
    rewrite Hloop, (run_rules_first_match _ _ _ _ _ _ rest _ _ Hrej Hen Hcc).
    rewrite strip_dont_notify_filter. fold remaining. cbn [fst].
    destruct (notifies remaining) eqn:Hn.
    + split; [intros _; apply lookup_insert_eq|].
      intros Hnot. apply notifies_spec in Hn. done.
    + split; [|done]. intros Hyes. apply notifies_spec in Hyes. congruence.
  - apply rejects_or_match.
Qed.

Lemma first_match_wins_witness :
  let event := message_from "@alice:hs" in
  let matches := evaluator_matches hs_room event 0 in
  let filtered : gmap string (list Event) := {[ "@bob:hs" := [event] ]} in
  ∃ abu cache_end,
    user_loop event matches filtered ∅
      [("@bob:hs", [rule_no_match; notify_rule; rule_highlight])] (∅, ∅)
    = Some (abu, cache_end)
    ∧ abu !! "@bob:hs" = Some [ActStr "notify"].
Proof.
  intros event matches filtered.
  pose (res := default (∅, ∅)
          (user_loop event matches filtered ∅
             [("@bob:hs", [rule_no_match; notify_rule; rule_highlight])] (∅, ∅))).
  exists res.1, res.2.
  assert (user_loop event matches filtered ∅
            ([] ++ ("@bob:hs", [rule_no_match; notify_rule; rule_highlight]) :: [])
            (∅, ∅) = Some (res.1, res.2)) as Hloop by (vm_compute; reflexivity).
  split; [exact Hloop|].
  destruct (first_match_wins event matches filtered ∅ [] "@bob:hs"
              [rule_no_match; notify_rule; rule_highlight] [] (∅, ∅)
              res.1 res.2 event []) as (_ & Hfirst & _).
  - intros Hin. by apply elem_of_nil in Hin.
  - intros Hin. by apply elem_of_nil in Hin.
  - reflexivity.
  - exact Hloop.
  - vm_compute. reflexivity.
  - discriminate.
  - destruct (Hfirst [rule_no_match] notify_rule [rule_highlight] ∅ ∅) as [Hyes _].
    + reflexivity.
    + eapply rejects_failed; [discriminate | vm_compute; reflexivity | constructor].
    + discriminate.
    + vm_compute. reflexivity.
    + apply Hyes. split; [discriminate|]. vm_compute. by left.
Defined.

(** ** C7: the sender and the users that cannot see the event *)

(** An entry of the result was either there before the loop or belongs to a
    user whose first visible event has another sender. *)
Lemma user_loop_entries event matches filtered room_members items st st' uid acts :
  user_loop event matches filtered room_members items st = Some st' →
  st'.1 !! uid = Some acts →
  st.1 !! uid = Some acts
  ∨ ∃ first more, filtered !! uid = Some (first :: more) ∧ ev_sender first ≠ uid.
Proof.
  revert st. induction items as [|item items IH]; intros st Hloop Hacts; simpl in *.
  - left. by injection Hloop as ->.
  - destruct (user_step _ _ _ _ _ _) as [st1|] eqn:Hstep; [|done].
    destruct (IH st1 Hloop Hacts) as [Hst1 | Hvis]; [|by right].
    unfold user_step in Hstep.
    destruct (filtered !! item.1) as [[|first more]|] eqn:Hf; [| |done].
    + left. by injection Hstep as ->.
    + destruct (String.eqb (ev_sender first) item.1) eqn:Hs;
        [left; by injection Hstep as ->|].
      apply String.eqb_neq in Hs.
      destruct (run_rules _ _ _ _ _) as [[acts'|] cache1];
        injection Hstep as <-; simpl in Hst1; [|by left].
      destruct (decide (item.1 = uid)) as [<- | Hne].
      * right. by exists first, more.
      * left. by rewrite lookup_insert_ne in Hst1.
Qed.

Lemma user_loop_total event matches filtered room_members items st :
  (∀ item, item ∈ items → is_Some (filtered !! item.1)) →
  is_Some (user_loop event matches filtered room_members items st).
Proof.
  revert st. induction items as [|item items IH]; intros st Hall; simpl; [done|].
  destruct (Hall item) as [evs Hevs]; [by left|].
  unfold user_step. rewrite Hevs.
  assert (∀ st1, is_Some (user_loop event matches filtered room_members items st1))
    as Hrest.
  { intros st1. apply IH. intros it Hit. apply Hall. by right. }
  destruct evs as [|first more]; [apply Hrest|].
  destruct (String.eqb (ev_sender first) item.1); [apply Hrest|].
  destruct (run_rules _ _ _ _ _) as [res cache1]. apply Hrest.
Qed.

(** C7.  Let [_get_rules_for_event] return the mapping at [l], and let the
    visibility filter answer for every user of that mapping with events
    taken from the list it was given.  Then [action_for_event_by_user]
    returns a mapping, the sender of the event is not in it, and neither is
    any user for whom the filter returned no event. *)
Theorem sender_and_invisible_excluded hs event ctx w l w1 :
  _get_rules_for_event hs event ctx w = Some (l, w1) →
  let filtered :=
    filter_events_for_clients_context hs
      (user_tuples (deref (w_heap w1) l)) [event] ctx in
  (∀ uid, uid ∈ dom (deref (w_heap w1) l) → is_Some (filtered !! uid)) →
  (∀ uid evs e, filtered !! uid = Some evs → e ∈ evs → e = event) →
  ∃ abu,
    action_for_event_by_user hs event ctx w = Some (abu, w1)
    ∧ abu !! ev_sender event = None
    ∧ (∀ uid, filtered !! uid = Some [] → abu !! uid = None).
Proof.
  intros Hrules filtered Htotal Hsub.
  unfold action_for_event_by_user. rewrite Hrules. fold filtered.
  set (room_members := get_joined_users_from_context hs event ctx).
  set (matches := evaluator_matches hs event (size room_members)).
  set (items := map_to_list (deref (w_heap w1) l)).
  destruct (user_loop_total event matches filtered room_members items (∅, ∅))
    as [[abu cache_end] Hloop].
  { intros [uid rules] Hin. apply Htotal. apply elem_of_dom. exists rules.
    by apply elem_of_map_to_list. }
  rewrite Hloop. exists abu. split; [done|].
  assert (∀ uid acts, abu !! uid = Some acts →
            ∃ first more, filtered !! uid = Some (first :: more)
                          ∧ ev_sender first ≠ uid) as Hentries.
  { intros uid acts Hacts.
    destruct (user_loop_entries _ _ _ _ _ _ _ uid acts Hloop Hacts) as [Hinit | Hvis];
      [|done].
    simpl in Hinit. by rewrite lookup_empty in Hinit. }
  split.
  - destruct (abu !! ev_sender event) as [acts|] eqn:Hacts; [|done].
    destruct (Hentries _ _ Hacts) as (first & more & Hf & Hne).
    destruct Hne. rewrite (Hsub _ _ first Hf); [done | by left].
  - intros uid Hnone. destruct (abu !! uid) as [acts|] eqn:Hacts; [|done].
    destruct (Hentries _ _ Hacts) as (first & more & Hf & _). congruence.
Qed.

Lemma sender_and_invisible_excluded_witness :
  let event := message_from "@bob:hs" in
  is_Some (deref (refresh_room hs_room event ctx_left empty_world).2.(w_heap)
             (refresh_room hs_room event ctx_left empty_world).1 !! "@bob:hs")
  ∧ ∃ abu w1,
      action_for_event_by_user hs_room event ctx_left empty_world = Some (abu, w1)
      ∧ abu !! ev_sender event = None.
Proof.
  intros event. split; [eexists; vm_compute; reflexivity|].
  pose (res := default (0, empty_world)
                 (_get_rules_for_event hs_room event ctx_left empty_world)).
  assert (_get_rules_for_event hs_room event ctx_left empty_world
          = Some (res.1, res.2)) as Hrules by (vm_compute; reflexivity).
  assert (filter_events_for_clients_context hs_room
            (user_tuples (deref (w_heap res.2) res.1)) [event] ctx_left
          = {[ "@bob:hs" := [event] ]}) as Hfiltered by (vm_compute; reflexivity).
  destruct (sender_and_invisible_excluded hs_room event ctx_left empty_world
              res.1 res.2 Hrules) as (abu & Hact & Hsender & _).
  - intros uid Hin.
    assert (dom (deref (w_heap res.2) res.1) = {[ "@bob:hs" ]}) as Hdom
      by (vm_compute; reflexivity).
    rewrite Hdom in Hin. apply elem_of_singleton in Hin as ->.
    rewrite Hfiltered. by rewrite lookup_singleton_eq.
  - intros uid evs e Hevs He. rewrite Hfiltered in Hevs.
    apply lookup_singleton_Some in Hevs as [_ <-].
    by apply list_elem_of_singleton in He.
  - exists abu, res.2. split; [exact Hact | exact Hsender].
Defined.

(** * Further properties of the code *)

(** ** _condition_checker: the memo *)

Lemma condition_checker_subseteq matches conds uid dn (cache : gmap string bool) :
  cache ⊆ (_condition_checker matches conds uid dn cache).2.
Proof.
  revert cache. induction conds as [|cond conds IH]; intros cache; simpl; [done|].
  destruct (memo_key cond ≫= (cache !!.)) as [[|]|] eqn:Hmemo; [apply IH|done|].
  assert (cache ⊆ match memo_key cond with
                  | Some k => <[k := matches cond uid dn]> cache
                  | None => cache
                  end) as Hstep.
  { destruct (memo_key cond) as [k|] eqn:Hk; [|done].
    by apply insert_subseteq. }
  destruct (matches cond uid dn); [|done].
  etrans; [exact Hstep | apply IH].
Qed.

(** X1.  A verdict in the condition cache is never overwritten by
    [_condition_checker], and every verdict it adds is the evaluator's
    answer, for this user, on a condition of the chain carrying that id. *)
Theorem condition_cache_only_grows matches conds uid dn (cache : gmap string bool) :
  let cache' := (_condition_checker matches conds uid dn cache).2 in
  (∀ k b, cache !! k = Some b → cache' !! k = Some b)
  ∧ (∀ k b, cache' !! k = Some b →
       cache !! k = Some b
       ∨ ∃ cond, cond ∈ conds ∧ memo_key cond = Some k
                 ∧ matches cond uid dn = b).
Proof.
  split.
  - intros k b Hk.
    by apply (lookup_weaken _ _ _ _ Hk (condition_checker_subseteq _ _ _ _ _)).
  - revert cache. induction conds as [|cond conds IH]; intros cache k b; simpl;
      [by left|].
    destruct (memo_key cond ≫= (cache !!.)) as [[|]|] eqn:Hmemo.
    + intros Hk. destruct (IH _ _ _ Hk) as [? | (c & Hc & ?)]; [by left|].
      right. exists c. split; [by right | done].
    + by left.
    + assert (∀ cache1,
                cache1 = match memo_key cond with
                         | Some k0 => <[k0 := matches cond uid dn]> cache
                         | None => cache
                         end →
                cache1 !! k = Some b →
                cache !! k = Some b
                ∨ ∃ c, c ∈ cond :: conds ∧ memo_key c = Some k
                       ∧ matches c uid dn = b) as Hstep.
      { intros cache1 -> Hk. destruct (memo_key cond) as [k0|] eqn:Hk0; [|by left].
        destruct (decide (k0 = k)) as [-> | Hne].
        - rewrite lookup_insert_eq in Hk. injection Hk as <-.
          right. exists cond. split; [by left | done].
        - rewrite lookup_insert_ne in Hk by done. by left. }
      destruct (matches cond uid dn) eqn:Hres.
      * intros Hk. destruct (IH _ _ _ Hk) as [Hk1 | (c & Hc & ?)].
        -- by eapply Hstep.
        -- right. exists c. split; [by right | done].
      * simpl. by apply Hstep.
Qed.

(** X2.  The memo is transparent when ids identify conditions: if the
    conditions of the chain that share an id get the same answer from the
    evaluator, and the verdicts already cached for their ids are those
    answers, then [_condition_checker] returns whether every condition of
    the chain matches. *)
Theorem condition_checker_transparent matches conds uid dn (cache : gmap string bool) :
  (∀ c1 c2 k, c1 ∈ conds → c2 ∈ conds →
              memo_key c1 = Some k → memo_key c2 = Some k →
              matches c1 uid dn = matches c2 uid dn) →
  (∀ cond k b, cond ∈ conds → memo_key cond = Some k → cache !! k = Some b →
               matches cond uid dn = b) →
  (_condition_checker matches conds uid dn cache).1
  = forallb (λ cond, matches cond uid dn) conds.
Proof.
  revert cache. induction conds as [|cond conds IH]; intros cache Hids Hcache;
    simpl; [done|].
  assert (∀ c1 c2 k, c1 ∈ conds → c2 ∈ conds →
            memo_key c1 = Some k → memo_key c2 = Some k →
            matches c1 uid dn = matches c2 uid dn) as Hids'.
  { intros c1 c2 k H1 H2. apply Hids; by right. }
  destruct (memo_key cond ≫= (cache !!.)) as [b|] eqn:Hmemo.
  - destruct (memo_key cond) as [k|] eqn:Hk; [|done]. simpl in Hmemo.
    assert (matches cond uid dn = b) as Hb.
    { eapply Hcache; [by left | done | done]. }
    rewrite Hb. destruct b; [|done]. simpl. apply IH; [done|].
    intros c k' b' Hc. apply Hcache. by right.
  - destruct (matches cond uid dn) eqn:Hres; [|done]. simpl.
    apply IH; [done|]. intros c k b Hc Hkc Hlook.
    destruct (memo_key cond) as [k0|] eqn:Hk0.
    + destruct (decide (k0 = k)) as [-> | Hne].
      * rewrite lookup_insert_eq in Hlook. injection Hlook as <-.
        rewrite <- Hres. apply (Hids c cond k); [by right | by left | done | done].
      * rewrite lookup_insert_ne in Hlook by done.
        eapply Hcache; [by right | done | done].
    + eapply Hcache; [by right | done | done].
Qed.

Lemma condition_checker_transparent_witness :
  let cond := {| cond_id := Some "members"; cond_fields := [] |} in
  let matches := evaluator_matches hs_room (message_from "@alice:hs") 0 in
  (_condition_checker matches [cond; cond] "@bob:hs" None ∅).1
  = forallb (λ c, matches c "@bob:hs" None) [cond; cond].
Proof.
  intros cond matches.
  apply (condition_checker_transparent matches [cond; cond] "@bob:hs" None ∅).
  - intros c1 c2 k H1 H2 _ _.
    apply elem_of_cons in H1 as [-> | H1];
      [|apply list_elem_of_singleton in H1 as ->];
      (apply elem_of_cons in H2 as [-> | H2];
       [|apply list_elem_of_singleton in H2 as ->]); reflexivity.
  - intros c k b _ _ Hlook. by rewrite lookup_empty in Hlook.
Defined.

(** X3.  A chain whose conditions all carry an id with a cached verdict is
    decided by the cache alone: the result is the conjunction of the cached
    verdicts, whatever the evaluator, the user and the display name are,
    and the cache is left as it was. *)
Theorem condition_checker_memoised matches conds uid dn (cache : gmap string bool) :
  (∀ cond, cond ∈ conds → ∃ k, memo_key cond = Some k ∧ is_Some (cache !! k)) →
  _condition_checker matches conds uid dn cache
  = (forallb (λ cond, default false (memo_key cond ≫= (cache !!.))) conds, cache).
Proof.
  induction conds as [|cond conds IH]; intros Hall; simpl; [done|].
  destruct (Hall cond) as (k & Hk & [b Hb]); [by left|].
  rewrite Hk. simpl. rewrite Hb. simpl. destruct b; [|done].
  apply IH. intros c Hc. apply Hall. by right.
Qed.

Lemma condition_checker_memoised_witness :
  let cond := {| cond_id := Some "members"; cond_fields := [] |} in
  let matches := evaluator_matches hs_room (message_from "@alice:hs") 0 in
  matches cond "@bob:hs" None = true
  ∧ _condition_checker matches [cond] "@bob:hs" None {[ "members" := false ]}
    = (false, {[ "members" := false ]}).
Proof.
  intros cond matches. split; [reflexivity|].
  etrans.
  - apply (condition_checker_memoised matches [cond] "@bob:hs" None
             {[ "members" := false ]}).
    intros c Hc. apply list_elem_of_singleton in Hc as ->.
    exists "members". split; [reflexivity|]. exists false. reflexivity.
  - vm_compute. reflexivity.
Defined.

(** X4.  A chain whose conditions carry no id (or an empty one) neither
    reads nor writes the cache: the result is whether the evaluator matches
    every condition, and the cache is left as it was. *)
Theorem condition_checker_without_ids matches conds uid dn (cache : gmap string bool) :
  (∀ cond, cond ∈ conds → memo_key cond = None) →
  _condition_checker matches conds uid dn cache
  = (forallb (λ cond, matches cond uid dn) conds, cache).
Proof.
  induction conds as [|cond conds IH]; intros Hall; simpl; [done|].
  rewrite (Hall cond) by by left. simpl.
  destruct (matches cond uid dn); [|done].
  apply IH. intros c Hc. apply Hall. by right.
Qed.

Lemma condition_checker_without_ids_witness :
  let c1 := {| cond_id := None; cond_fields := [] |} in
  let c2 := {| cond_id := Some ""; cond_fields := [("kind", "event_match")] |} in
  let matches := evaluator_matches hs_room (message_from "@alice:hs") 0 in
  _condition_checker matches [c1; c2] "@bob:hs" None {[ "" := true ]}
  = (false, {[ "" := true ]}).
Proof.
  intros c1 c2 matches.
  etrans.
  - apply (condition_checker_without_ids matches [c1; c2] "@bob:hs" None
             {[ "" := true ]}).
    intros c Hc. apply elem_of_cons in Hc as [-> | Hc]; [reflexivity|].
    apply list_elem_of_singleton in Hc as ->. reflexivity.
  - vm_compute. reflexivity.
Defined.

(** X5.  Chains compose and short-circuit: checking [xs ++ ys] is checking
    [xs] and, only if it matched, checking [ys] with the cache [xs] left;
    once [xs] fails, [ys] is neither evaluated nor cached. *)
Theorem condition_checker_app matches xs ys uid dn (cache : gmap string bool) :
  _condition_checker matches (xs ++ ys) uid dn cache
  = if (_condition_checker matches xs uid dn cache).1
    then _condition_checker matches ys uid dn
           (_condition_checker matches xs uid dn cache).2
    else (false, (_condition_checker matches xs uid dn cache).2).
Proof.
  revert cache. induction xs as [|cond xs IH]; intros cache; simpl; [done|].
  destruct (memo_key cond ≫= (cache !!.)) as [[|]|]; [apply IH | done |].
  destruct (matches cond uid dn); [apply IH | done].
Qed.

(** ** The loop over the users *)

Lemma run_rules_subseteq matches rules uid dn (cache : gmap string bool) :
  cache ⊆ (run_rules matches rules uid dn cache).2.
Proof.
  revert cache. induction rules as [|rule rules IH]; intros cache; simpl; [done|].
  destruct (is_disabled rule); [apply IH|].
  pose proof (condition_checker_subseteq matches (conditions rule) uid dn cache)
    as Hsub.
  destruct (_condition_checker _ _ _ _ _) as [[|] cache1]; simpl in *; [done|].
  etrans; [exact Hsub | apply IH].
Qed.

Lemma user_step_cache event matches filtered room_members st item st' :
  user_step event matches filtered room_members st item = Some st' →
  st.2 ⊆ st'.2.
Proof.
  unfold user_step. intros Hstep.
  destruct (filtered !! item.1) as [[|first more]|]; [| |done].
  - by injection Hstep as <-.
  - destruct (String.eqb (ev_sender first) item.1); [by injection Hstep as <-|].
    pose proof (run_rules_subseteq matches item.2 item.1
                  (display_name_for event room_members item.1) st.2) as Hsub.
    destruct (run_rules _ _ _ _ _) as [res cache1].
    by injection Hstep as <-.
Qed.

(** X6.  During one evaluation the condition cache only grows: a verdict
    cached while one user's rules are run is the verdict every later user
    gets for that id. *)
Theorem verdicts_persist_across_users event matches filtered room_members
    items st st' k b :
  user_loop event matches filtered room_members items st = Some st' →
  st.2 !! k = Some b → st'.2 !! k = Some b.
Proof.
  revert st. induction items as [|item items IH]; intros st Hloop Hk; simpl in *.
  - by injection Hloop as <-.
  - destruct (user_step _ _ _ _ _ _) as [st1|] eqn:Hstep; [|done].
    apply (IH st1 Hloop).
    by apply (lookup_weaken _ _ _ _ Hk (user_step_cache _ _ _ _ _ _ _ Hstep)).
Qed.

Lemma verdicts_persist_across_users_witness :
  let event := message_from "@alice:hs" in
  let matches := evaluator_matches hs_room event 0 in
  let filtered : gmap string (list Event) :=
    {[ "@bob:hs" := [event]; "@carol:hs" := [event] ]} in
  let rule := {| enabled := None;
                 conditions := [{| cond_id := Some "members";
                                   cond_fields := [] |}];
                 actions := [ActStr "notify"] |} in
  ∃ st', user_loop event matches filtered ∅
           [("@bob:hs", [rule]); ("@carol:hs", [rule])]
           (∅, {[ "members" := false ]}) = Some st'
         ∧ st'.2 !! "members" = Some false
         ∧ st'.1 = ∅.
Proof.
  intros event matches filtered rule.
  pose (res := default (∅, ∅)
          (user_loop event matches filtered ∅
             [("@bob:hs", [rule]); ("@carol:hs", [rule])]
             (∅, {[ "members" := false ]}))).
  assert (user_loop event matches filtered ∅
            [("@bob:hs", [rule]); ("@carol:hs", [rule])]
            (∅, {[ "members" := false ]}) = Some res) as Hloop
    by (vm_compute; reflexivity).
  exists res. split; [exact Hloop|]. split.
  - apply (verdicts_persist_across_users event matches filtered ∅ _ _ res
             "members" false Hloop).
    reflexivity.
  - vm_compute. reflexivity.
Defined.

Lemma run_rules_some matches rules uid dn (cache : gmap string bool) acts :
  (run_rules matches rules uid dn cache).1 = Some acts →
  ∃ rule, rule ∈ rules ∧ enabled rule ≠ Some false
          ∧ acts = filter (λ a, a ≠ ActStr "dont_notify") (actions rule)
          ∧ ActStr "notify" ∈ acts.
Proof.
  revert cache. induction rules as [|rule rules IH]; intros cache; simpl; [done|].
  destruct (is_disabled rule) eqn:Hdis.
  { intros Hrun. destruct (IH _ Hrun) as (r & Hr & ?).
    exists r. split; [by right | done]. }
  destruct (_condition_checker _ _ _ _ _) as [[|] cache1]; simpl.
  - destruct (notifies (strip_dont_notify (actions rule))) eqn:Hn; [|done].
    intros [= <-]. exists rule. split; [by left|]. split.
    { intros Hen. apply is_disabled_spec in Hen. congruence. }
    split; [apply strip_dont_notify_filter|].
    by apply notifies_spec in Hn as [_ ?].
  - intros Hrun. destruct (IH _ Hrun) as (r & Hr & ?).
    exists r. split; [by right | done].
Qed.

Lemma user_loop_some event matches filtered room_members items st st' uid acts :
  user_loop event matches filtered room_members items st = Some st' →
  st'.1 !! uid = Some acts →
  st.1 !! uid = Some acts
  ∨ ∃ rules dn cache, (uid, rules) ∈ items
                      ∧ (run_rules matches rules uid dn cache).1 = Some acts.
Proof.
  revert st. induction items as [|item items IH]; intros st Hloop Hacts; simpl in *.
  - left. by injection Hloop as ->.
  - destruct (user_step _ _ _ _ _ _) as [st1|] eqn:Hstep; [|done].
    destruct (IH st1 Hloop Hacts) as [Hst1 | (rules & dn & c & Hin & Hrun)].
    2:{ right. exists rules, dn, c. split; [by right | done]. }
    unfold user_step in Hstep.
    destruct (filtered !! item.1) as [[|first more]|]; [| |done].
    + left. by injection Hstep as ->.
    + destruct (String.eqb (ev_sender first) item.1);
        [left; by injection Hstep as ->|].
      destruct (run_rules matches item.2 item.1
                  (display_name_for event room_members item.1) st.2)
        as [[acts'|] cache1] eqn:Hrun;
        injection Hstep as <-; simpl in Hst1; [|by left].
      destruct (decide (item.1 = uid)) as [<- | Hne].
      * rewrite lookup_insert_eq in Hst1. injection Hst1 as ->.
        right. eexists item.2, _, _. split; [destruct item; by left|].
        by rewrite Hrun.
      * left. by rewrite lookup_insert_ne in Hst1.
Qed.

(** X7.  Every entry [action_for_event_by_user] returns belongs to a user of
    the rules mapping and is the action list of one of that user's rules
    that is not disabled, with every ["dont_notify"] removed; it contains
    ["notify"] and no ["dont_notify"]. *)
Theorem entries_are_notifying_rules hs event ctx w abu w1 uid acts :
  action_for_event_by_user hs event ctx w = Some (abu, w1) →
  abu !! uid = Some acts →
  ∃ l rules rule,
    _get_rules_for_event hs event ctx w = Some (l, w1)
    ∧ deref (w_heap w1) l !! uid = Some rules
    ∧ rule ∈ rules
    ∧ enabled rule ≠ Some false
    ∧ acts = filter (λ a, a ≠ ActStr "dont_notify") (actions rule)
    ∧ ActStr "notify" ∈ acts
    ∧ ActStr "dont_notify" ∉ acts.
Proof.
  unfold action_for_event_by_user. intros Hact Hacts.
  destruct (_get_rules_for_event hs event ctx w) as [[l w1']|]; [|done].
  destruct (user_loop _ _ _ _ _ _) as [[abu' cache_end]|] eqn:Hloop; [|done].
  injection Hact as -> ->.
  destruct (user_loop_some _ _ _ _ _ _ _ uid acts Hloop Hacts)
    as [Hinit | (rules & dn & c & Hin & Hrun)].
  { simpl in Hinit. by rewrite lookup_empty in Hinit. }
  apply elem_of_map_to_list in Hin.
  destruct (run_rules_some _ _ _ _ _ _ Hrun) as (rule & Hrule & Hen & Heq & Hnotify).
  exists l, rules, rule. repeat (split; [done|]).
  rewrite Heq. intros Hin'. apply list_elem_of_filter in Hin' as [Hne _]. done.
Qed.

Lemma entries_are_notifying_rules_witness :
  ∃ abu w1,
    action_for_event_by_user hs_room (message_from "@alice:hs") ctx_left
      empty_world = Some (abu, w1)
    ∧ abu !! "@bob:hs" = Some [ActStr "notify"]
    ∧ ∃ l rules rule,
        _get_rules_for_event hs_room (message_from "@alice:hs") ctx_left
          empty_world = Some (l, w1)
        ∧ deref (w_heap w1) l !! "@bob:hs" = Some rules
        ∧ rule ∈ rules
        ∧ enabled rule ≠ Some false
        ∧ [ActStr "notify"]
          = filter (λ a, a ≠ ActStr "dont_notify") (actions rule)
        ∧ ActStr "notify" ∈ [ActStr "notify"]
        ∧ ActStr "dont_notify" ∉ [ActStr "notify"].
Proof.
  pose (res := default (∅, empty_world)
          (action_for_event_by_user hs_room (message_from "@alice:hs") ctx_left
             empty_world)).
  assert (action_for_event_by_user hs_room (message_from "@alice:hs") ctx_left
            empty_world = Some (res.1, res.2)) as Hact
    by (vm_compute; reflexivity).
  assert (res.1 !! "@bob:hs" = Some [ActStr "notify"]) as Hbob
    by (vm_compute; reflexivity).
  exists res.1, res.2. split; [exact Hact|]. split; [exact Hbob|].
  exact (entries_are_notifying_rules hs_room (message_from "@alice:hs") ctx_left
           empty_world res.1 res.2 "@bob:hs" [ActStr "notify"] Hact Hbob).
Defined.

(** ** Errors *)

Lemma user_step_none event matches filtered room_members st item :
  user_step event matches filtered room_members st item = None
  ↔ filtered !! item.1 = None.
Proof.
  unfold user_step. destruct (filtered !! item.1) as [[|first more]|]; [done| |done].
  destruct (String.eqb (ev_sender first) item.1); [done|].
  by destruct (run_rules _ _ _ _ _) as [[?|] ?].
Qed.

Lemma user_loop_none event matches filtered room_members items st :
  user_loop event matches filtered room_members items st = None
  ↔ ∃ item, item ∈ items ∧ filtered !! item.1 = None.
Proof.
  revert st. induction items as [|item items IH]; intros st; simpl.
  - split; [done|]. intros (it & Hin & _). by apply elem_of_nil in Hin.
  - destruct (user_step _ _ _ _ _ _) as [st1|] eqn:Hstep.
    + rewrite IH. split.
      * intros (it & Hin & Hnone). exists it. split; [by right | done].
      * intros (it & Hin & Hnone). apply elem_of_cons in Hin as [-> | Hin].
        -- apply user_step_none with (event := event) (matches := matches)
             (room_members := room_members) (st := st) in Hnone. congruence.
        -- by exists it.
    + split; [|done]. intros _. exists item. split; [by left|].
      by eapply user_step_none.
Qed.

(** X8.  Once the rules mapping is there, [action_for_event_by_user] fails
    (with the [KeyError] of [filtered_by_user[uid]]) exactly when the
    visibility filter has no answer for some user of the mapping; a user the
    filter leaves out stops the evaluation for everybody. *)
Theorem missing_filter_answer_fails hs event ctx w l w1 :
  _get_rules_for_event hs event ctx w = Some (l, w1) →
  let filtered :=
    filter_events_for_clients_context hs
      (user_tuples (deref (w_heap w1) l)) [event] ctx in
  action_for_event_by_user hs event ctx w = None
  ↔ ∃ uid, is_Some (deref (w_heap w1) l !! uid) ∧ filtered !! uid = None.
Proof.
  intros Hrules filtered. unfold action_for_event_by_user. rewrite Hrules.
  fold filtered.
  set (loop := user_loop _ _ _ _ _ _).
  assert (loop = None
          ↔ ∃ item, item ∈ map_to_list (deref (w_heap w1) l)
                    ∧ filtered !! item.1 = None) as Hloop
    by apply user_loop_none.
  split.
  - intros Hnone. assert (loop = None) as Hl.
    { destruct loop as [[? ?]|]; done. }
    apply Hloop in Hl as ([uid rules] & Hin & Hf).
    exists uid. split; [|done]. exists rules. by apply elem_of_map_to_list.
  - intros (uid & [rules Hrs] & Hf).
    assert (loop = None) as ->; [|done].
    apply Hloop. exists (uid, rules). split; [|done].
    by apply elem_of_map_to_list.
Qed.

Lemma missing_filter_answer_fails_witness :
  let hs := {|
    is_mine_id := is_mine_id hs_room;
    get_if_app_services_interested_in_user :=
      get_if_app_services_interested_in_user hs_room;
    _simple_select_many_batch := _simple_select_many_batch hs_room;
    get_if_users_have_pushers := get_if_users_have_pushers hs_room;
    get_users_with_read_receipts_in_room :=
      get_users_with_read_receipts_in_room hs_room;
    bulk_get_push_rules := bulk_get_push_rules hs_room;
    user_has_pusher := user_has_pusher hs_room;
    get_push_rules_for_user := get_push_rules_for_user hs_room;
    filter_events_for_clients_context := λ _ _ _, ∅;
    get_joined_users_from_context := get_joined_users_from_context hs_room;
    evaluator_matches := evaluator_matches hs_room;
  |} in
  action_for_event_by_user hs (message_from "@alice:hs") ctx_left empty_world
  = None.
Proof.
  intros hs.
  pose (res := default (0, empty_world)
          (_get_rules_for_event hs (message_from "@alice:hs") ctx_left empty_world)).
  assert (_get_rules_for_event hs (message_from "@alice:hs") ctx_left empty_world
          = Some (res.1, res.2)) as Hrules by (vm_compute; reflexivity).
  apply (missing_filter_answer_fails hs (message_from "@alice:hs") ctx_left
           empty_world res.1 res.2 Hrules).
  exists "@bob:hs". split; [eexists; vm_compute; reflexivity|]. reflexivity.
Defined.

(** X9.  [_get_rules_for_event] fails (with the [KeyError] of
    [event.content['membership']]) exactly for an event of type
    [m.room.member] whose content has no ["membership"]; every other event,
    membership events with any membership value included, gets a mapping. *)
Theorem get_rules_for_event_fails_iff hs event ctx w :
  _get_rules_for_event hs event ctx w = None
  ↔ ev_type event = "m.room.member" ∧ ev_content event !! "membership" = None.
Proof.
  unfold _get_rules_for_event.
  destruct (refresh_room hs event ctx w) as [l w1].
  destruct (String.eqb (ev_type event) "m.room.member") eqn:Htype.
  - apply String.eqb_eq in Htype.
    destruct (ev_content event !! "membership") as [membership|].
    + split; [|by intros [_ ?]].
      destruct (_ && _ && _ && _); [|done].
      by destruct (alloc_dict _ _).
    + done.
  - apply String.eqb_neq in Htype. split; [done|]. by intros [? _].
Qed.

(** ** get_rules: what is reused and what is missing *)

Lemma classify_reused hs self (cached : gmap string (list Rule)) acc item uid rules :
  acc.1 ⊆ cached →
  (classify hs self cached acc item).1 ⊆ cached
  ∧ ((classify hs self cached acc item).1 !! uid = Some rules
     ↔ acc.1 !! uid = Some rules
       ∨ (rules ≠ [] ∧ cached !! uid = Some rules
          ∧ member_map self !! item.2 = Some (uid, Membership_JOIN))).
Proof.
  intros Hacc. destruct item as [key event_id]. unfold classify. cbn [snd].
  assert (∀ u st, member_map self !! event_id = Some (u, st) →
            (rules ≠ [] ∧ cached !! uid = Some rules
             ∧ Some (u, st) = Some (uid, Membership_JOIN))
            ↔ (rules ≠ [] ∧ cached !! uid = Some rules
               ∧ u = uid ∧ st = Membership_JOIN)) as Hinj.
  { intros u st _. split.
    - intros (? & ? & [= -> ->]). done.
    - intros (? & ? & -> & ->). done. }
  destruct (member_map self !! event_id) as [[user_id state]|] eqn:Hmm.
  - rewrite (Hinj user_id state eq_refl).
    destruct (String.eqb state Membership_JOIN) eqn:Hst.
    + apply String.eqb_eq in Hst.
      destruct (cached !! user_id) as [[|r rs]|] eqn:Hc.
      * split; [done|]. split; [by left|]. intros [? | (Hne & Hcu & -> & _)]; [done|].
        rewrite Hc in Hcu. by injection Hcu as <-.
      * cbn [fst]. split; [by apply insert_subseteq_l|].
        destruct (decide (user_id = uid)) as [-> | Hne].
        -- rewrite lookup_insert_eq. split.
           ++ intros [= <-]. right. done.
           ++ intros [Hold | (_ & Hcu & _)].
              ** apply (lookup_weaken _ _ _ _ Hold) in Hacc. congruence.
              ** congruence.
        -- rewrite lookup_insert_ne by done. split; [by left|].
           intros [? | (_ & _ & ? & _)]; done.
      * split; [done|]. split; [by left|]. intros [? | (_ & Hcu & -> & _)]; [done|].
        congruence.
    + apply String.eqb_neq in Hst. split; [done|]. split; [by left|].
      intros [? | (_ & _ & _ & ?)]; done.
  - assert ((if negb (String.eqb key.1 EventTypes_Member) then acc
             else if negb (is_mine_id hs key.2) then acc
             else if get_if_app_services_interested_in_user hs key.2 then acc
             else (acc.1, <[key.2 := event_id]> acc.2)).1 = acc.1) as ->.
    { destruct (negb _); [done|]. destruct (negb _); [done|].
      by destruct (get_if_app_services_interested_in_user _ _). }
    split; [done|]. split; [by left|]. intros [? | (_ & _ & ?)]; done.
Qed.

Lemma fold_classify_reused hs self (cached : gmap string (list Rule)) items acc uid rules :
  acc.1 ⊆ cached →
  (fold_left (classify hs self cached) items acc).1 !! uid = Some rules
  ↔ acc.1 !! uid = Some rules
    ∨ (rules ≠ [] ∧ cached !! uid = Some rules
       ∧ ∃ item, item ∈ items
                 ∧ member_map self !! item.2 = Some (uid, Membership_JOIN)).
Proof.
  revert acc. induction items as [|item items IH]; intros acc Hacc; cbn [fold_left].
  - split; [by left|]. intros [? | (_ & _ & it & Hin & _)]; [done|].
    by apply elem_of_nil in Hin.
  - destruct (classify_reused hs self cached acc item uid rules Hacc) as [Hsub Hone].
    rewrite (IH _ Hsub), Hone. split.
    + intros [[? | (? & ? & ?)] | (? & ? & it & Hin & ?)].
      * by left.
      * right. split; [done|]. split; [done|]. exists item. split; [by left | done].
      * right. split; [done|]. split; [done|]. exists it. split; [by right | done].
    + intros [? | (Hne & Hc & it & Hin & Hmm)]; [by left; left|].
      apply elem_of_cons in Hin as [-> | Hin].
      * left. right. done.
      * right. split; [done|]. split; [done|]. by exists it.
Qed.

(** X10.  On the slow path a user is answered from the cache exactly when
    some state entry of the context points to an event that [member_map]
    knows as a join of that user and the cached rule list of the user is
    not empty; the rules returned are the cached ones.  A user known as
    left or invited, and a user cached with an empty rule list, is not
    reused. *)
Theorem reused_spec hs self (cached : gmap string (list Rule)) ctx uid rules :
  (partition_state hs self cached ctx).1 !! uid = Some rules
  ↔ rules ≠ [] ∧ cached !! uid = Some rules
    ∧ ∃ key event_id,
        (key, event_id) ∈ ctx_current_state_ids ctx
        ∧ member_map self !! event_id = Some (uid, "join").
Proof.
  unfold partition_state. rewrite fold_classify_reused by apply map_empty_subseteq.
  cbn [fst]. rewrite lookup_empty. split.
  - intros [? | (Hne & Hc & [key event_id] & Hin & Hmm)]; [done|].
    split; [done|]. split; [done|]. by exists key, event_id.
  - intros (Hne & Hc & key & event_id & Hin & Hmm). right.
    split; [done|]. split; [done|]. by exists (key, event_id).
Qed.

Lemma classify_missing_keep hs self (cached : gmap string (list Rule)) acc item uid :
  item.1 ≠ (EventTypes_Member, uid) →
  (classify hs self cached acc item).2 !! uid = acc.2 !! uid.
Proof.
  intros Hkey. destruct item as [[ty sk] event_id]. unfold classify. cbn [fst snd] in *.
  destruct (member_map self !! event_id) as [[user_id state]|].
  - destruct (String.eqb state Membership_JOIN); [|done].
    by destruct (cached !! user_id) as [[|r rs]|].
  - destruct (String.eqb ty EventTypes_Member) eqn:Hty; [|done]. cbn [negb].
    apply String.eqb_eq in Hty. subst ty.
    destruct (is_mine_id hs sk); [|done]. cbn [negb].
    destruct (get_if_app_services_interested_in_user hs sk); [done|]. cbn [snd].
    rewrite lookup_insert_ne; [done|]. intros ->. done.
Qed.

Lemma classify_missing_hit hs self (cached : gmap string (list Rule)) acc uid event_id :
  (classify hs self cached acc ((EventTypes_Member, uid), event_id)).2 !! uid
  = if bool_decide (member_map self !! event_id = None)
       && is_mine_id hs uid
       && negb (get_if_app_services_interested_in_user hs uid)
    then Some event_id else acc.2 !! uid.
Proof.
  unfold classify. cbn [fst snd].
  destruct (member_map self !! event_id) as [[user_id state]|].
  - rewrite bool_decide_eq_false_2 by done. cbn [andb].
    destruct (String.eqb state Membership_JOIN); [|done].
    by destruct (cached !! user_id) as [[|r rs]|].
  - rewrite bool_decide_eq_true_2 by done. rewrite String.eqb_refl. cbn [negb andb].
    destruct (is_mine_id hs uid); [|done]. cbn [negb].
    destruct (get_if_app_services_interested_in_user hs uid); [done|]. cbn [snd negb].
    by rewrite lookup_insert_eq.
Qed.

Lemma fold_classify_missing_keep hs self (cached : gmap string (list Rule)) items acc uid :
  (EventTypes_Member, uid) ∉ items.*1 →
  (fold_left (classify hs self cached) items acc).2 !! uid = acc.2 !! uid.
Proof.
  revert acc. induction items as [|item items IH]; intros acc Hnin; cbn [fold_left];
    [done|].
  rewrite IH.
  - apply classify_missing_keep. intros Heq. apply Hnin. rewrite <- Heq. by left.
  - intros Hin. apply Hnin. by right.
Qed.

(** X11.  [current_state_ids] being a dictionary (its keys are distinct), a
    user is put among the missing members, with event id [event_id], exactly
    when the context has the membership entry [(m.room.member, user)] with
    that event id, [member_map] does not know the event, the user is local
    and no application service claims the user.  Remote users, application
    service users and entries of other event types are never looked up. *)
Theorem missing_spec hs self (cached : gmap string (list Rule)) ctx uid event_id :
  NoDup (ctx_current_state_ids ctx).*1 →
  (partition_state hs self cached ctx).2 !! uid = Some event_id
  ↔ (("m.room.member", uid), event_id) ∈ ctx_current_state_ids ctx
    ∧ member_map self !! event_id = None
    ∧ is_mine_id hs uid = true
    ∧ get_if_app_services_interested_in_user hs uid = false.
Proof.
  unfold partition_state.
  change "m.room.member" with EventTypes_Member.
  generalize (∅ : gmap string (list Rule)). intros ret.
  assert (∀ items acc, NoDup items.*1 →
            (fold_left (classify hs self cached) items acc).2 !! uid = Some event_id
            ↔ (acc.2 !! uid = Some event_id ∧ (EventTypes_Member, uid) ∉ items.*1)
              ∨ (((EventTypes_Member, uid), event_id) ∈ items
                 ∧ member_map self !! event_id = None
                 ∧ is_mine_id hs uid = true
                 ∧ get_if_app_services_interested_in_user hs uid = false)
              ∨ (acc.2 !! uid = Some event_id
                 ∧ ∃ e, ((EventTypes_Member, uid), e) ∈ items
                        ∧ (bool_decide (member_map self !! e = None)
                           && is_mine_id hs uid
                           && negb (get_if_app_services_interested_in_user hs uid)
                           = false))) as Hgen.
  { induction items as [|[key e0] items IH]; intros acc Hnd; cbn [fold_left].
    - split.
      + intros Hacc. left. split; [done|]. intros Hin. by apply elem_of_nil in Hin.
      + intros [[? _] | [(Hin & _) | (_ & e & Hin & _)]]; [done| |];
          by apply elem_of_nil in Hin.
    - apply NoDup_cons in Hnd as [Hkey Hnd]. cbn [fmap list_fmap fst] in *.
      destruct (decide (key = (EventTypes_Member, uid))) as [-> | Hne].
      + rewrite fold_classify_missing_keep by done.
        rewrite classify_missing_hit.
        destruct (bool_decide (member_map self !! e0 = None)
                  && is_mine_id hs uid
                  && negb (get_if_app_services_interested_in_user hs uid)) eqn:Hq.
        * apply andb_true_iff in Hq as [Hq Has].
          apply andb_true_iff in Hq as [Hmm Hmine].
          apply bool_decide_eq_true in Hmm. apply negb_true_iff in Has.
          split.
          -- intros [= <-]. right. left. split; [by left | done].
          -- intros [[_ Hnin] | [(Hin & _) | (_ & e & Hin & Hf)]].
             ++ destruct Hnin. by left.
             ++ apply elem_of_cons in Hin as [[= <-] | Hin]; [done|].
                destruct Hkey. apply list_elem_of_fmap.
                by exists ((EventTypes_Member, uid), event_id).
             ++ apply elem_of_cons in Hin as [[= <-] | Hin].
                ** rewrite bool_decide_eq_true_2, Hmine, Has in Hf by done. done.
                ** destruct Hkey. apply list_elem_of_fmap.
                   by exists ((EventTypes_Member, uid), e).
        * split.
          -- intros Hacc. right. right. split; [done|]. exists e0.
             split; [by left | done].
          -- intros [[_ Hnin] | [(Hin & Hmm & Hmine & Has) | (Hacc & _)]].
             ++ destruct Hnin. by left.
             ++ apply elem_of_cons in Hin as [[= <-] | Hin].
                ** rewrite bool_decide_eq_true_2, Hmine, Has in Hq by done. done.
                ** destruct Hkey. apply list_elem_of_fmap.
                   by exists ((EventTypes_Member, uid), event_id).
             ++ done.
      + rewrite (IH _ Hnd).
        rewrite classify_missing_keep by done.
        split.
        * intros [[Hacc Hnin] | [(Hin & ?) | (Hacc & e & Hin & Hf)]].
          -- left. split; [done|]. intros Hin. apply elem_of_cons in Hin as [? | ?]; done.
          -- right. left. split; [by right | done].
          -- right. right. split; [done|]. exists e. split; [by right | done].
        * intros [[Hacc Hnin] | [(Hin & ?) | (Hacc & e & Hin & Hf)]].
          -- left. split; [done|]. intros Hin. apply Hnin. by right.
          -- right. left. apply elem_of_cons in Hin as [[= ? ?] | Hin]; [done|]. done.
          -- right. right. split; [done|]. exists e.
             apply elem_of_cons in Hin as [[= ? ?] | Hin]; [done|]. done. }
  intros Hnd. rewrite (Hgen _ _ Hnd). cbn [snd]. rewrite lookup_empty. split.
  - intros [[? _] | [? | [? _]]]; done.
  - intros ?. right. by left.
Qed.

Lemma missing_spec_witness :
  let self := (RulesForRoom_init "!room" empty_heap).1 in
  (partition_state hs_room self ∅ ctx_left_joined).2 !! "@carol:hs"
  = Some "$carol1".
Proof.
  intros self.
  apply (missing_spec hs_room self ∅ ctx_left_joined "@carol:hs" "$carol1").
  - refine (bool_decide_unpack _ _). vm_compute. exact I.
  - split; [right; by left|]. split; [reflexivity|]. split; reflexivity.
Defined.

(** X12.  A context whose state group is [None] or [0] is never answered by
    the fast path, not even right after a commit for that same context: the
    mapping [get_rules] returns is then a dictionary of its own, never the
    entry's [rules_by_user]. *)
Theorem falsy_state_group_never_fast hs self ctx h :
  rules_by_user self < next_obj h →
  truthy_int (ctx_state_group ctx) = false →
  let r1 := get_rules hs self ctx h in
  let r2 := get_rules hs r1.1.2 ctx r1.2 in
  r1.1.1 ≠ rules_by_user r1.1.2 ∧ r2.1.1 ≠ rules_by_user r2.1.2.
Proof.
  intros Hlt Hfalsy.
  assert (∀ self0 h0, rules_by_user self0 < next_obj h0 →
            (get_rules hs self0 ctx h0).1.1 = next_obj h0
            ∧ rules_by_user (get_rules hs self0 ctx h0).1.2 = rules_by_user self0
            ∧ rules_by_user self0 < next_obj (get_rules hs self0 ctx h0).2)
    as Hone.
  { intros self0 h0 Hlt0.
    pose proof (get_rules_frame hs self0 ctx h0) as [Hru Hn]. simpl in Hru, Hn.
    split; [|split; [done | lia]].
    unfold get_rules.
    destruct (get_rules_begin_cases hs self0 ctx h0)
      as [(Ht & _) | (_ & parts & _ & [[_ ->] | [_ ->]])].
    - congruence.
    - done.
    - match goal with
      | |- context [get_rules_resume hs ?p self0 ?h1] =>
          by pose proof (get_rules_resume_frame hs p self0 h1) as (-> & _)
      end. }
  intros r1 r2. destruct (Hone self h Hlt) as (Hl1 & Hru1 & Hlt1).
  fold r1 in Hl1, Hru1, Hlt1.
  assert (rules_by_user r1.1.2 < next_obj r1.2) as Hlt1' by (rewrite Hru1; done).
  destruct (Hone r1.1.2 r1.2 Hlt1') as (Hl2 & Hru2 & Hlt2). fold r2 in Hl2, Hru2, Hlt2.
  split; [rewrite Hl1, Hru1; lia | rewrite Hl2, Hru2; lia].
Qed.

Lemma falsy_state_group_never_fast_witness :
  let self := (RulesForRoom_init "!room" empty_heap).1 in
  let h := (RulesForRoom_init "!room" empty_heap).2 in
  let ctx := {| ctx_state_group := Some 0%Z;
                ctx_current_state_ids := [(member_key "@carol:hs", "$carol1")] |} in
  let r1 := get_rules hs_room self ctx h in
  let r2 := get_rules hs_room r1.1.2 ctx r1.2 in
  state_group r1.1.2 = Group (Some 0%Z)
  ∧ r1.1.1 ≠ rules_by_user r1.1.2 ∧ r2.1.1 ≠ rules_by_user r2.1.2.
Proof.
  intros self h ctx r1 r2. split; [vm_compute; reflexivity|].
  apply (falsy_state_group_never_fast hs_room self ctx h).
  - vm_compute. lia.
  - reflexivity.
Defined.

(** ** _get_rules_for_member_event_ids: the rows *)

Lemma fold_members_lookup rows (m : gmap string (string * string)) event_id :
  fold_left
    (λ m row, <[row_event_id row := (row_user_id row, row_membership row)]> m)
    rows m !! event_id
  = match last (filter (λ row, row_event_id row = event_id) rows) with
    | Some row => Some (row_user_id row, row_membership row)
    | None => m !! event_id
    end.
Proof.
  revert m. induction rows as [|row rows IH]; intros m; cbn [fold_left]; [done|].
  rewrite IH, filter_cons. case_decide as Hid.
  - rewrite last_cons. destruct (last _); [done|].
    rewrite <- Hid. by rewrite lookup_insert_eq.
  - destruct (last _); [done|]. by rewrite lookup_insert_ne.
Qed.

(** X13.  The members resolved from the store's rows: an event id is
    resolved exactly when some row carries it, and when several rows do the
    last of them decides the user and the membership. *)
Theorem members_of_rows_last_wins rows event_id :
  members_of_rows rows !! event_id
  = (λ row, (row_user_id row, row_membership row))
      <$> last (filter (λ row, row_event_id row = event_id) rows).
Proof.
  unfold members_of_rows. rewrite fold_members_lookup.
  destruct (last _); [done|]. apply lookup_empty.
Qed.

(** ** The entry over time *)

Lemma sys_step_sequence_exact s op :
  sequence (sys_self (sys_step s op))
  = (sequence (sys_self s) + (if is_invalidation op then 1 else 0))%Z.
Proof.
  destruct op as [|hs ctx|hs l]; simpl.
  - done.
  - destruct (get_rules_begin _ _ _ _) as [[?|?] ?]; simpl; lia.
  - destruct (list_find _ _) as [[i p]|]; [|lia].
    pose proof (get_rules_resume_frame hs p (sys_self s) (sys_heap s)) as Hf.
    destruct (get_rules_resume _ _ _ _) as [[l1 self1] h1]. simpl in *.
    destruct Hf as (_ & _ & -> & _). lia.
Qed.

(** X14.  The sequence number of an entry counts its invalidations: a new
    entry starts at 0, [invalidate_all] adds one, and no refresh, committed
    or discarded, changes it. *)
Theorem sequence_counts_invalidations rid h ops :
  sequence (sys_self (sys_run (sys_init rid h) ops))
  = Z.of_nat (count_invalidations ops).
Proof.
  assert (∀ s, sequence (sys_self (sys_run s ops))
               = (sequence (sys_self s) + Z.of_nat (count_invalidations ops))%Z)
    as Hgen.
  { induction ops as [|op ops IH]; intros s; simpl.
    - unfold count_invalidations; simpl. lia.
    - rewrite IH, sys_step_sequence_exact. unfold count_invalidations. simpl.
      destruct (is_invalidation op); simpl; lia. }
  rewrite Hgen. simpl. lia.
Qed.

Lemma old_dictionary_step s op l :
  sys_inv s →
  l < next_obj (sys_heap s) →
  l ≠ rules_by_user (sys_self s) →
  l ∉ p_ret <$> sys_pending s →
  l < next_obj (sys_heap (sys_step s op))
  ∧ l ≠ rules_by_user (sys_self (sys_step s op))
  ∧ (l ∉ p_ret <$> sys_pending (sys_step s op))
  ∧ deref (sys_heap (sys_step s op)) l = deref (sys_heap s) l.
Proof.
  intros (Hr & Hs & Hp & Hnd) Hlt Hne Hnin.
  destruct op as [|hs ctx|hs l0]; unfold sys_step.
  - cbn [invalidate_all alloc_object alloc_dict sys_self sys_heap sys_pending
         rules_by_user next_obj fst snd].
    split; [lia|]. split; [lia|]. split; [done|].
    unfold deref; simpl. rewrite lookup_insert_ne; [done | lia].
  - destruct (get_rules_begin_cases hs (sys_self s) ctx (sys_heap s))
      as [(_ & _ & ->) | (_ & parts & _ & [[_ ->] | [_ ->]])];
      cbn [sys_self sys_heap sys_pending].
    + done.
    + split; [simpl; lia|]. split; [done|]. split; [done|]. by apply deref_alloc_ne.
    + split; [simpl; lia|]. split; [done|]. split; [|by apply deref_alloc_ne].
      rewrite fmap_app. intros [Hin | Hin]%elem_of_app; [done|].
      apply list_elem_of_singleton in Hin. simpl in Hin. lia.
  - destruct (list_find _ _) as [[i p]|] eqn:Hfind; [|done].
    apply list_find_Some in Hfind as (Hi & Hq & _).
    apply list_elem_of_lookup_2 in Hi.
    pose proof (get_rules_resume_frame hs p (sys_self s) (sys_heap s)) as Hf.
    destruct (get_rules_resume _ _ _ _) as [[l1 self1] h1]. simpl in *.
    destruct Hf as (_ & Hru & _ & Hn & _ & Hd).
    split; [lia|]. split; [congruence|]. split.
    + intros Hin. apply Hnin. apply list_elem_of_fmap in Hin as (q & -> & Hin).
      apply list_elem_of_filter in Hin as [_ Hin].
      apply list_elem_of_fmap. by exists q.
    + apply Hd; [done|]. intros ->. apply Hnin.
      apply list_elem_of_fmap. by exists p.
Qed.

(** X15.  A dictionary that is neither the entry's current [rules_by_user]
    nor the result under construction of a suspended refresh is never
    changed again, whatever runs on the entry: a mapping handed out by the
    slow path, and a dictionary an invalidation replaced, keep their
    contents. *)
Theorem old_dictionaries_stable s l ops :
  reachable s →
  l < next_obj (sys_heap s) →
  l ≠ rules_by_user (sys_self s) →
  l ∉ p_ret <$> sys_pending s →
  deref (sys_heap (sys_run s ops)) l = deref (sys_heap s) l.
Proof.
  intros Hreach. apply reachable_inv in Hreach. revert s Hreach.
  induction ops as [|op ops IH]; intros s Hinv Hlt Hne Hnin; simpl; [done|].
  destruct (old_dictionary_step s op l Hinv Hlt Hne Hnin) as (Hlt' & Hne' & Hnin' & Hd).
  rewrite IH; [done | by apply sys_inv_step | done | done | done].
Qed.

Lemma old_dictionaries_stable_witness :
  let hs := hs_bob "join" in
  let s := sys_run (sys_init "!room" empty_heap) [DoBegin hs ctx_bob; DoResume hs 2] in
  let ops := [DoInvalidateAll; DoBegin hs ctx_bob; DoResume hs 5] in
  deref (sys_heap s) 0 = {[ "@bob:hs" := [notify_rule] ]}
  ∧ rules_by_user (sys_self (sys_run s [DoInvalidateAll])) = 4
  ∧ deref (sys_heap (sys_run s ops)) 2 = deref (sys_heap s) 2.
Proof.
  intros hs s ops. split; [vm_compute; reflexivity|].
  split; [vm_compute; reflexivity|].
  apply (old_dictionaries_stable s 2 ops).
  - by eexists "!room", empty_heap, _.
  - vm_compute. lia.
  - vm_compute. lia.
  - vm_compute. intros Hin. by apply elem_of_nil in Hin.
Defined.

(** X16.  The fast path hands out the entry's own dictionary and allocates
    nothing.  A commit that follows adds its rules to that very dictionary,
    so the caller of the fast path sees them; an invalidation that follows
    gives the entry a new dictionary and leaves the one handed out as it
    was. *)
Theorem fast_path_returns_the_cache s hs ctx :
  reachable s →
  truthy_int (ctx_state_group ctx) = true →
  state_group (sys_self s) = Group (ctx_state_group ctx) →
  let l := rules_by_user (sys_self s) in
  get_rules_begin hs (sys_self s) ctx (sys_heap s) = (Returned l, sys_heap s)
  ∧ (∀ p hs', p ∈ sys_pending s → p_sequence p = sequence (sys_self s) →
       deref (sys_heap (sys_step s (DoResume hs' (p_ret p)))) l
       = fetched_rules hs' (sys_self s) (resolved_members hs' (p_missing p))
         ∪ deref (sys_heap s) l)
  ∧ deref (sys_heap (sys_step s DoInvalidateAll)) l = deref (sys_heap s) l
  ∧ rules_by_user (sys_self (sys_step s DoInvalidateAll)) ≠ l.
Proof.
  intros Hreach Htruthy Hgroup l. pose proof (reachable_inv _ Hreach) as Hinv.
  split.
  { unfold get_rules_begin. rewrite Htruthy, Hgroup. simpl.
    by rewrite bool_decide_eq_true_2. }
  split.
  - intros p hs' Hin Hseq. rewrite (sys_step_resume s hs' p Hinv Hin).
    cbn [sys_heap]. destruct Hinv as (_ & _ & Hp & _).
    destruct (Hp p Hin) as (_ & Hne & _).
    destruct (get_rules_resume_spec hs' p (sys_self s) (sys_heap s) Hne)
      as (_ & _ & _ & Hcur).
    destruct (Hcur (eq_sym Hseq)) as (_ & _ & Hd & _). exact Hd.
  - destruct Hinv as (Hr & _). fold l in Hr. simpl. split; [|lia].
    unfold deref; simpl. rewrite lookup_insert_ne; [done | lia].
Qed.

Lemma fast_path_returns_the_cache_witness :
  let hs := hs_bob "join" in
  let s := sys_run (sys_init "!room" empty_heap) [DoBegin hs ctx_bob; DoResume hs 2] in
  get_rules_begin hs (sys_self s) ctx_bob (sys_heap s) = (Returned 0, sys_heap s)
  ∧ deref (sys_heap (sys_step s DoInvalidateAll)) 0 = {[ "@bob:hs" := [notify_rule] ]}
  ∧ deref (sys_heap (sys_step s DoInvalidateAll))
      (rules_by_user (sys_self (sys_step s DoInvalidateAll))) = ∅.
Proof.
  intros hs s.
  destruct (fast_path_returns_the_cache s hs ctx_bob) as (Hfast & _ & Hinv & _).
  - by eexists "!room", empty_heap, _.
  - reflexivity.
  - vm_compute. reflexivity.
  - split; [exact Hfast|]. split; [|vm_compute; reflexivity].
    etrans; [exact Hinv|]. vm_compute. reflexivity.
Defined.

(** ** The registry: rooms do not interfere *)

Lemma get_rules_touches hs self ctx h :
  let r := get_rules hs self ctx h in
  rules_by_user r.1.2 = rules_by_user self
  ∧ room_id r.1.2 = room_id self
  ∧ (next_obj h ≤ next_obj r.2)%nat
  ∧ ∀ l, l < next_obj h → l ≠ rules_by_user self → deref r.2 l = deref h l.
Proof.
  unfold get_rules.
  destruct (get_rules_begin_cases hs self ctx h)
    as [(_ & _ & ->) | (_ & parts & _ & [[_ ->] | [_ ->]])]; cbn [fst snd].
  - done.
  - split; [done|]. split; [done|]. split; [simpl; lia|].
    intros l Hl _. by apply deref_alloc_ne.
  - unfold get_rules_resume, _get_rules_for_member_event_ids. cbn [p_sequence
      p_ret p_missing p_state_group].
    match goal with
    | |- context [update_cache self ?h1 ?sq ?ms ?rs ?sg] =>
        pose proof (update_cache_frame self h1 sq ms rs sg)
          as (Hru & _ & Hrid & Hn & _ & Hd);
        destruct (update_cache self h1 sq ms rs sg) as [self1 h2]
    end.
    cbn [fst snd] in *. split; [done|]. split; [done|].
    split; [unfold store_dict; cbn [next_obj]; rewrite Hn; simpl; lia|].
    intros l Hl Hne. rewrite deref_store_ne by lia.
    rewrite Hd by done. by apply deref_alloc_ne.
Qed.

Lemma refresh_room_rooms hs event ctx w :
  world_wf w →
  let w1 := (refresh_room hs event ctx w).2 in
  world_wf w1
  ∧ (next_obj (w_heap w) ≤ next_obj (w_heap w1))%nat
  ∧ ∀ rid, rid ≠ ev_room_id event →
      w_rooms w1 !! rid = w_rooms w !! rid
      ∧ ∀ r, w_rooms w !! rid = Some r →
             deref (w_heap w1) (rules_by_user r) = deref (w_heap w) (rules_by_user r).
Proof.
  intros Hwf. unfold refresh_room, _get_rules_for_room.
  destruct (w_rooms w !! ev_room_id event) as [r0|] eqn:Hroom.
  - pose proof (get_rules_touches hs r0 ctx (w_heap w)) as (Hru & Hrid & Hn & Hd).
    destruct (get_rules hs r0 ctx (w_heap w)) as [[l self1] h1].
    cbn [fst snd w_heap w_rooms] in *.
    destruct (Hwf (ev_room_id event) r0 Hroom) as (Hid0 & Hlt0 & Hdist0).
    split; [|split; [done|]].
    + unfold world_wf; cbn [w_heap w_rooms].
      intros rid r Hr. destruct (decide (rid = ev_room_id event)) as [-> | Hne].
      * rewrite lookup_insert_eq in Hr. injection Hr as <-.
        split; [congruence|]. split; [lia|].
        intros rid' r' Hne' Hr'. rewrite lookup_insert_ne in Hr' by done.
        rewrite Hru. by eapply Hdist0.
      * rewrite lookup_insert_ne in Hr by done.
        destruct (Hwf rid r Hr) as (Hid & Hlt & Hdist).
        split; [done|]. split; [lia|].
        intros rid' r' Hne' Hr'. destruct (decide (rid' = ev_room_id event)) as [-> | Hne''].
        -- rewrite lookup_insert_eq in Hr'. injection Hr' as <-.
           rewrite Hru. by eapply Hdist.
        -- rewrite lookup_insert_ne in Hr' by done. by eapply Hdist.
    + cbn [w_heap w_rooms]. intros rid Hne. rewrite lookup_insert_ne by done. split; [done|].
      intros r Hr. destruct (Hwf rid r Hr) as (_ & Hlt & _).
      apply Hd; [done|]. intros Heq. by apply (Hdist0 rid r Hne Hr).
  - cbn [RulesForRoom_init alloc_dict alloc_object fst snd w_heap w_rooms].
    match goal with
    | |- context [get_rules hs ?r0 ctx ?h0] =>
        pose proof (get_rules_touches hs r0 ctx h0) as (Hru & Hrid & Hn & Hd);
        destruct (get_rules hs r0 ctx h0) as [[l self1] h1]
    end.
    cbn [fst snd w_heap w_rooms rules_by_user room_id next_obj] in *.
    split; [|split; [lia|]].
    + unfold world_wf; cbn [w_heap w_rooms].
      intros rid r Hr. destruct (decide (rid = ev_room_id event)) as [-> | Hne].
      * rewrite lookup_insert_eq in Hr. injection Hr as <-.
        split; [done|]. split; [lia|].
        intros rid' r' Hne' Hr'. rewrite !lookup_insert_ne in Hr' by done.
        destruct (Hwf rid' r' Hr') as (_ & Hlt & _). lia.
      * rewrite !lookup_insert_ne in Hr by done.
        destruct (Hwf rid r Hr) as (Hid & Hlt & Hdist).
        split; [done|]. split; [lia|].
        intros rid' r' Hne' Hr'. destruct (decide (rid' = ev_room_id event)) as [-> | Hne''].
        -- rewrite lookup_insert_eq in Hr'. injection Hr' as <-. lia.
        -- rewrite !lookup_insert_ne in Hr' by done. by eapply Hdist.
    + cbn [w_heap w_rooms]. intros rid Hne. rewrite !lookup_insert_ne by done. split; [done|].
      intros r Hr. destruct (Hwf rid r Hr) as (_ & Hlt & _).
      rewrite Hd by lia. unfold deref; simpl. rewrite lookup_insert_ne; [done | lia].
Qed.

(** X17.  Evaluating an event of one room leaves every other room alone: in
    a well-formed world whose registry is below its capacity (so that
    inserting an entry evicts none), [_get_rules_for_event] keeps the world
    well-formed, and the entry of any other room, and the dictionary behind
    it, are what they were. *)
Theorem rooms_do_not_interfere hs event ctx w l w' :
  world_wf w →
  (Z.of_nat (size (w_rooms w)) < max_entries)%Z →
  _get_rules_for_event hs event ctx w = Some (l, w') →
  world_wf w'
  ∧ ∀ rid, rid ≠ ev_room_id event →
      w_rooms w' !! rid = w_rooms w !! rid
      ∧ ∀ r, w_rooms w !! rid = Some r →
             deref (w_heap w') (rules_by_user r) = deref (w_heap w) (rules_by_user r).
Proof.
  intros Hwf _. pose proof (refresh_room_rooms hs event ctx w Hwf) as (Hwf1 & Hn & Hfr).
  unfold _get_rules_for_event.
  destruct (refresh_room hs event ctx w) as [l0 w1]. cbn [snd] in *.
  set (copied := {| w_heap :=
                      store_dict (next_obj (w_heap w1))
                        (<[default "" (ev_state_key event) :=
                             get_push_rules_for_user hs
                               (default "" (ev_state_key event))]>
                           (deref (alloc_dict (deref (w_heap w1) l0) (w_heap w1)).2
                              (next_obj (w_heap w1))))
                        (alloc_dict (deref (w_heap w1) l0) (w_heap w1)).2;
                    w_rooms := w_rooms w1 |}).
  assert (world_wf copied
          ∧ ∀ rid, rid ≠ ev_room_id event →
              w_rooms copied !! rid = w_rooms w !! rid
              ∧ ∀ r, w_rooms w !! rid = Some r →
                     deref (w_heap copied) (rules_by_user r)
                     = deref (w_heap w) (rules_by_user r)) as Hcopy.
  { split.
    - intros rid r Hr. destruct (Hwf1 rid r Hr) as (Hid & Hlt & Hdist).
      split; [done|]. split; [simpl; lia | done].
    - intros rid Hne. destruct (Hfr rid Hne) as [Hsame Hd]. split; [done|].
      intros r Hr. rewrite <- (Hd r Hr).
      assert (w_rooms w1 !! rid = Some r) as Hr1 by congruence.
      destruct (Hwf1 rid r Hr1) as (_ & Hlt & _).
      unfold copied; cbn [w_heap]. rewrite deref_store_ne by lia.
      by apply deref_alloc_ne. }
  destruct (String.eqb (ev_type event) "m.room.member").
  - destruct (ev_content event !! "membership") as [membership|]; [|done].
    destruct (_ && _ && _ && _).
    + cbn [alloc_dict]. intros [= <- <-]. exact Hcopy.
    + intros [= <- <-]. done.
  - intros [= <- <-]. done.
Qed.

Lemma rooms_do_not_interfere_witness :
  let w := (refresh_room hs_room (message_from "@alice:hs") ctx_left empty_world).2 in
  let other := {| ev_event_id := "$invite2"; ev_room_id := "!other";
                  ev_type := "m.room.member"; ev_sender := "@alice:hs";
                  ev_state_key := Some "@carol:hs";
                  ev_content := {[ "membership" := "invite" ]} |} in
  ∃ l w',
    _get_rules_for_event hs_room other ctx_left_joined w = Some (l, w')
    ∧ w_rooms w' !! "!room" = w_rooms w !! "!room"
    ∧ ∀ r, w_rooms w !! "!room" = Some r →
           deref (w_heap w') (rules_by_user r) = deref (w_heap w) (rules_by_user r).
Proof.
  intros w other.
  pose (res := default (0, empty_world)
          (_get_rules_for_event hs_room other ctx_left_joined w)).
  assert (_get_rules_for_event hs_room other ctx_left_joined w
          = Some (res.1, res.2)) as Hrules by (vm_compute; reflexivity).
  assert (world_wf w) as Hwf.
  { apply (refresh_room_rooms hs_room (message_from "@alice:hs") ctx_left empty_world).
    intros rid r Hr. simpl in Hr. by rewrite lookup_empty in Hr. }
  assert (Z.of_nat (size (w_rooms w)) < max_entries)%Z as Hcap
    by (vm_compute; reflexivity).
  destruct (rooms_do_not_interfere hs_room other ctx_left_joined w res.1 res.2
              Hwf Hcap Hrules) as [_ Hframe].
  exists res.1, res.2. split; [exact Hrules|].
  apply (Hframe "!room"). discriminate.
Defined.

(** ** update_cache and __init__ *)

(** X18.  Two commits that both pass the sequence check are one commit of
    the merged data: members and rules of the later commit win over those of
    the earlier one, both win over what was cached, and the state group of
    the later commit stays. *)
Theorem commits_compose self h members1 rules1 sg1 members2 rules2 sg2 :
  let first := update_cache self h (sequence self) members1 rules1 sg1 in
  update_cache first.1 first.2 (sequence self) members2 rules2 sg2
  = update_cache self h (sequence self) (members2 ∪ members1)
      (rules2 ∪ rules1) sg2.
Proof.
  intros first. unfold first. rewrite !update_cache_current. cbn [fst snd].
  unfold update_cache. cbn [sequence]. rewrite bool_decide_eq_true_2 by done.
  cbn [room_id member_map rules_by_user sequence].
  rewrite deref_store_eq, !(assoc_L (∪)).
  unfold store_dict. cbn [next_obj dicts]. by rewrite insert_insert_eq.
Qed.

(** X19.  An entry fresh from [__init__] has sequence 0 and answers no
    context from the fast path: its first [get_rules] reuses nothing and
    looks up every membership entry of the context that belongs to a local
    user no application service claims; without such an entry it returns an
    empty mapping and does not suspend. *)
Theorem new_entry_is_cold rid h hs ctx :
  let self := (RulesForRoom_init rid h).1 in
  let h1 := (RulesForRoom_init rid h).2 in
  let missing := all_member_event_ids hs ctx in
  let b := get_rules_begin hs self ctx h1 in
  sequence self = 0%Z
  ∧ room_id self = rid
  ∧ deref h1 (rules_by_user self) = ∅
  ∧ deref b.2 (next_obj h1) = ∅
  ∧ b.1 = if bool_decide (missing = ∅) then Returned (next_obj h1)
          else Suspended {| p_sequence := 0; p_ret := next_obj h1;
                            p_missing := missing;
                            p_state_group := ctx_state_group ctx |}.
Proof.
  intros self h1 missing b. split; [done|]. split; [done|]. split.
  { unfold deref; simpl. by rewrite lookup_insert_eq. }
  unfold b, get_rules_begin. cbn [self RulesForRoom_init alloc_dict alloc_object
    fst snd state_group state_group_eq].
  rewrite andb_false_r. rewrite partition_state_cold by done.
  cbn [fst snd]. fold missing. case_bool_decide; cbn [fst snd]; split; try done.
  all: unfold deref; simpl; by rewrite lookup_insert_eq.
Qed.
